(** * EasyBuild [build.py]: dependency resolution, block splitting and the
    build drivers, embedded as Rocq functions.

    Python objects are rendered as follows: a dict with fixed keys is a
    record, a tuple [(name, version)] is a pair of strings, a list is a list,
    a dict used as a set of keys is a [gmap], an exception is a value of
    [EasyBuildError] (or of a dedicated type) returned on the left of a sum.
    Calls into code that lives outside [build.py] (the module tool, the
    easyconfig parser, the file system probes, the pipeline stages) are
    Section variables. *)

From Stdlib Require Import ZArith Ascii String.
From stdpp Require Import gmap strings list fin_maps.

Local Open Scope Z_scope.

(** ** Shared data *)

(** A module is identified by the tuple [(name, installversion)]. *)
Definition ModuleId : Type := string * string.

(** Modelled from the spec: [log.error] and [log.exception] of
    [easybuild.tools.build_log] are not part of [build.py]; the spec calls
    every condition they report fatal, so both raise.  One constructor per
    message of [build.py]. *)
Inductive EasyBuildError : Type :=
  | MaxLoopCnt (maxloopcnt : Z)
      (* "Maximum loop cnt %s reached, so quitting." *)
  | ModuleNotInFile (path : string) (m : ModuleId)
      (* "easyconfig file %s does not contain module %s" *)
  | DependenciesNotMet (missing : gset ModuleId)
      (* "Dependencies not met. Cannot resolve %s" % missingDependencies.keys() *)
  | ProcessFailed (spec msg : string)
      (* "Failed to process easyconfig %s:\n%s" *)
  | BlockTwice (blockName spec : string)
      (* "Found block %s twice in %s." *)
  | WriteBlockFailed (name spec : string)
      (* "Failed to write block %s to easyconfig %s" *)
  | Propagated (what : string).
      (* an exception build.py does not catch: IOError from open, eval *)

(** Python truth value of a string-or-None and of a list-or-None. *)
Definition truthy (s : option string) : bool :=
  match s with
  | Some (String _ _) => true
  | _ => false
  end.

Definition truthy_list {A} (l : option (list A)) : bool :=
  match l with
  | Some (_ :: _) => true
  | _ => false
  end.

(** The dict built by [processEasyconfig] for one block of one easyconfig
    file.  ['originalSpec'] is only present when the file had several
    blocks. *)
Record easyconfig : Type := mk_easyconfig {
  spec : string;
  module : ModuleId;
  dependencies : list ModuleId;
  originalSpec : option string;
  unresolvedDependencies : list ModuleId
}.

#[global] Instance easyconfig_eq_dec : EqDecision easyconfig.
Proof. solve_decision. Defined.

(** [module['dependencies'] = ...]: the dict is updated in place, the other
    keys are untouched. *)
Definition set_dependencies (m : easyconfig) (deps : list ModuleId) : easyconfig :=
  {| spec := spec m; module := module m; dependencies := deps;
     originalSpec := originalSpec m;
     unresolvedDependencies := unresolvedDependencies m |}.

(** ** Splitting an easyconfig file into blocks *)

Module Blocks.

(** *** The two regular expressions

    [regBlock    = re.compile(r"^\s*\[([\w.-]+)\]\s*$", re.M)] and
    [regDepBlock = re.compile(r"^\s*block\s*=(\s*.*?)\s*$", re.M)], matched
    the way Python's backtracking matcher does: leftmost start, greedy
    [\s*] and [+], lazy [.*?].  Text is a list of characters here and a
    [string] everywhere else. *)

Definition code (c : ascii) : N := N_of_ascii c.

(** [\s] for a byte string: blank, [\t], [\n], [\v], [\f], [\r]. *)
Definition is_space (c : ascii) : bool :=
  (code c =? 32)%N || ((9 <=? code c)%N && (code c <=? 13)%N).

(** [\w] for a byte string: letters, digits and the underscore. *)
Definition is_word (c : ascii) : bool :=
  ((48 <=? code c)%N && (code c <=? 57)%N)
  || ((65 <=? code c)%N && (code c <=? 90)%N)
  || ((97 <=? code c)%N && (code c <=? 122)%N)
  || (code c =? 95)%N.

(** The class [[\w.-]]. *)
Definition is_name_char (c : ascii) : bool :=
  is_word c || (code c =? 46)%N || (code c =? 45)%N.

Definition is_newline (c : ascii) : bool := (code c =? 10)%N.

(** The longest prefix whose characters satisfy [p], and the rest. *)
Fixpoint span (p : ascii → bool) (s : list ascii) : list ascii * list ascii :=
  match s with
  | [] => ([], [])
  | c :: s' =>
      if p c then let '(a, b) := span p s' in (c :: a, b) else ([], s)
  end.

(** A run of blanks cut before its last newline: what a greedy [\s*]
    gives back so that the [$] after it can match before a newline. *)
Fixpoint cut_last_newline (w : list ascii)
  : option (list ascii * list ascii) :=
  match w with
  | [] => None
  | c :: w' =>
      match cut_last_newline w' with
      | Some (pre, suf) => Some (c :: pre, suf)
      | None => if is_newline c then Some ([], w) else None
      end
  end.

(** [regBlock] tried at one position where [^] holds.  Result: the group,
    the blanks consumed after the closing bracket, the text after the
    match. *)
Definition regBlock_match (s : list ascii)
  : option (list ascii * list ascii * list ascii) :=
  let '(_, s1) := span is_space s in
  match s1 with
  | c :: s2 =>
      if (code c =? 91)%N then
        let '(name, s3) := span is_name_char s2 in
        match name, s3 with
        | _ :: _, c' :: s4 =>
            if (code c' =? 93)%N then
              let '(w, s5) := span is_space s4 in
              match s5 with
              | [] => Some (name, w, [])
              | _ :: _ =>
                  match cut_last_newline w with
                  | Some (pre, suf) => Some (name, pre, suf ++ s5)
                  | None => None
                  end
              end
            else None
        | _, _ => None
        end
      else None
  | [] => None
  end.

(** Is the character before the text that follows a match a newline? *)
Definition ends_line (consumed : list ascii) : bool :=
  match last consumed with
  | Some c => is_newline c
  | None => false
  end.

(** [regBlock.split]: the text up to the first match, and then, for every
    match, its group and the text up to the next match.  [bol] tells
    whether [^] holds at the current position.  Every step consumes a
    character, so a fuel above the length of the text is never used up. *)
Fixpoint split_from (fuel : nat) (bol : bool) (s : list ascii)
  : list ascii * list (list ascii) :=
  match fuel with
  | O => (s, [])
  | S fuel' =>
      match (if bol then regBlock_match s else None) with
      | Some (name, consumed, rest) =>
          let '(piece, pieces) := split_from fuel' (ends_line consumed) rest in
          ([], name :: piece :: pieces)
      | None =>
          match s with
          | [] => ([], [])
          | c :: s' =>
              let '(piece, pieces) := split_from fuel' (is_newline c) s' in
              (c :: piece, pieces)
          end
      end
  end.

Definition regBlock_split (text : string) : list string :=
  let s := list_ascii_of_string text in
  let '(piece, pieces) := split_from (S (length s)) true s in
  map string_of_list_ascii (piece :: pieces).

Fixpoint strip_prefix (p s : list ascii) : option (list ascii) :=
  match p, s with
  | [], _ => Some s
  | a :: p', b :: s' => if (code a =? code b)%N then strip_prefix p' s' else None
  | _ :: _, [] => None
  end.

Definition rstrip (l : list ascii) : list ascii :=
  rev (snd (span is_space (rev l))).

(** [regDepBlock] tried at one position where [^] holds; the result is
    group 1: the blanks after the [=] and the rest of that line without its
    trailing blanks. *)
Definition regDepBlock_match (s : list ascii) : option (list ascii) :=
  let '(_, s1) := span is_space s in
  match strip_prefix (list_ascii_of_string "block") s1 with
  | Some s2 =>
      let '(_, s3) := span is_space s2 in
      match s3 with
      | c :: s4 =>
          if (code c =? 61)%N then
            let '(w1, s5) := span is_space s4 in
            let '(line, _) := span (λ c, negb (is_newline c)) s5 in
            Some (w1 ++ rstrip line)
          else None
      | [] => None
      end
  | None => None
  end.

Fixpoint search_from (bol : bool) (s : list ascii) : option (list ascii) :=
  match (if bol then regDepBlock_match s else None) with
  | Some g => Some g
  | None =>
      match s with
      | [] => None
      | c :: s' => search_from (is_newline c) s'
      end
  end.

(** [regDepBlock.search(blockContents)], reduced to [group(1)]. *)
Definition regDepBlock_search (blockContents : string) : option string :=
  string_of_list_ascii
    <$> search_from true (list_ascii_of_string blockContents).

(** *** Blocks *)

(** What [eval] can give for the right-hand side of [block = ...]: a list
    or something else; an item is a string or something that is not equal
    to any string. *)
Inductive PyItem : Type :=
  | PyStr (s : string)
  | PyOther.

Inductive PyValue : Type :=
  | PyList (l : list PyItem)
  | PyScalar (v : PyItem).

(** One entry of [blocks]; the key ['dependencies'] may be absent. *)
Record block : Type := mk_block {
  name : string;
  contents : string;
  dependencies : option (list PyItem)
}.

Definition nl : string := String "010" EmptyString.

(** [os.path.basename]: what follows the last slash. *)
Definition basename (p : string) : string :=
  string_of_list_ascii
    (rev (fst (span (λ c, negb (code c =? 47)%N)
                    (rev (list_ascii_of_string p))))).

Section splitter.

(** The file system: path to content. *)
Abbreviation FS := (gmap string string).

(** [eval], which may raise. *)
Variable py_eval : string → EasyBuildError + PyValue.
(** [tempfile.mkstemp(prefix=..., suffix=...)]: the path it picks. *)
Variable mkstemp : FS → string → string → string.

(** The [while pieces] loop.  [split] returns the prelude and then a name
    and a text for every header, so the second [pop] always finds one. *)
Fixpoint make_blocks (spec : string) (pieces : list string)
    (blocks : list block) : EasyBuildError + list block :=
  match pieces with
  | [] => inr blocks
  | [_] => inl (Propagated "IndexError")
  | blockName :: blockContents :: pieces' =>
      if decide (blockName ∈ map name blocks) then
        inl (BlockTwice blockName spec)
      else
        match regDepBlock_search blockContents with
        | Some group =>
            match py_eval group with
            | inl err => inl err
            | inr (PyList deps) =>
                make_blocks spec pieces'
                  (blocks ++ [mk_block blockName blockContents (Some deps)])
            | inr (PyScalar v) =>
                make_blocks spec pieces'
                  (blocks ++ [mk_block blockName blockContents (Some [v])])
            end
        | None =>
            make_blocks spec pieces'
              (blocks ++ [mk_block blockName blockContents None])
        end
  end.

(** The [for dep in block['dependencies']] loop; [f] is what has been
    written to the file so far.  [None]: the dependency is not a block, and
    [log.error] raises. *)
Fixpoint write_dependencies (blocks : list block) (deps : list PyItem)
    (f : string) : option string :=
  match deps with
  | [] => Some f
  | dep :: deps' =>
      match dep with
      | PyStr d =>
          match filter (λ b, name b = d) blocks with
          | dep' :: _ =>
              write_dependencies blocks deps'
                (f +:+ (nl +:+ "# Dependency block " +:+ name dep')
                   +:+ contents dep')
          | [] => None
          end
      | PyOther => None
      end
  end.

(** Everything written to the file of one block. *)
Definition write_block (common : string) (blocks : list block) (b : block)
  : option string :=
  let f := common in
  match
    match dependencies b with
    | Some deps => write_dependencies blocks deps f
    | None => Some f
    end
  with
  | Some f => Some (f +:+ (nl +:+ "# Main block " +:+ name b) +:+ contents b)
  | None => None
  end.

(** [onlyBlocks and not (name in onlyBlocks)]. *)
Definition skipped (onlyBlocks : option (list string)) (b : block) : bool :=
  truthy_list onlyBlocks && bool_decide (name b ∉ default [] onlyBlocks).

(** The [for block in blocks] loop. *)
Fixpoint make_specs (spec cfgName common : string) (onlyBlocks : option (list string))
    (blocks todo : list block) (fs : FS) (specs : list string)
  : EasyBuildError + (FS * list string) :=
  match todo with
  | [] => inr (fs, specs)
  | b :: todo' =>
      if skipped onlyBlocks b then
        make_specs spec cfgName common onlyBlocks blocks todo' fs specs
      else
        let blockPath :=
          mkstemp fs "easybuild-" (cfgName +:+ "-" +:+ name b) in
        match write_block common blocks b with
        | Some text =>
            make_specs spec cfgName common onlyBlocks blocks todo'
              (<[blockPath := text]> fs) (specs ++ [blockPath])
        | None => inl (WriteBlockFailed (name b) spec)
        end
  end.

(** [retrieveBlocksInSpec(spec, log, onlyBlocks)]. *)
Definition retrieveBlocksInSpec (fs : FS) (spec : string)
    (onlyBlocks : option (list string))
  : EasyBuildError + (FS * list string) :=
  let cfgName := basename spec in
  match fs !! spec with
  | None => inl (Propagated "IOError")
  | Some text =>
      match regBlock_split text with
      | [] => inl (Propagated "IndexError")
      | common :: pieces =>
          match pieces with
          | _ :: _ =>
              match make_blocks spec pieces [] with
              | inl err => inl err
              | inr blocks =>
                  make_specs spec cfgName common onlyBlocks blocks blocks fs []
              end
          | [] => inr (fs, [spec])
          end
      end
  end.

(** What [build.py] reads from an [EasyConfig] object. *)
Record EasyConfigObj : Type := mk_EasyConfigObj {
  ec_name : string;
  ec_installversion : string;
  ec_dependencies : list (string * string);   (* d['name'], d['tk'] *)
  ec_toolkit : string * string                (* toolkit.name, .version *)
}.

(** [EasyConfig(spec, validate=...)]: the parser, which may raise an
    [EasyBuildError] with a message. *)
Variable EasyConfig : FS → string → bool → string + EasyConfigObj.

(** The [for spec in blocks] loop of [processEasyconfig]. *)
Fixpoint process_blocks (fs : FS) (path : string) (validate : bool)
    (several : bool) (blocks : list string) (easyconfigs : list easyconfig)
  : EasyBuildError + list easyconfig :=
  match blocks with
  | [] => inr easyconfigs
  | spec0 :: blocks' =>
      match EasyConfig fs spec0 validate with
      | inl msg => inl (ProcessFailed spec0 msg)
      | inr ec =>
          let deps :=
            ec_dependencies ec
            ++ (if decide ((ec_toolkit ec).1 = "dummy") then []
                else [ec_toolkit ec]) in
          process_blocks fs path validate several blocks'
            (easyconfigs
             ++ [mk_easyconfig spec0 (ec_name ec, ec_installversion ec) deps
                   (if several then Some path else None) deps])
      end
  end.

(** [processEasyconfig(path, log, onlyBlocks, validate=validate)]. *)
Definition processEasyconfig (onlyBlocks : option (list string))
    (path : string) (validate : bool) (fs : FS)
  : EasyBuildError + (FS * list easyconfig) :=
  match retrieveBlocksInSpec fs path onlyBlocks with
  | inl err => inl err
  | inr (fs', blocks) =>
      match process_blocks fs' path validate
              (bool_decide (1 < length blocks)%nat) blocks [] with
      | inl err => inl err
      | inr easyconfigs => inr (fs', easyconfigs)
      end
  end.

End splitter.

(** *** Header lines, in the words of the spec *)

(** The lines of a text: what lies between its newlines. *)
Fixpoint lines (s : list ascii) : list (list ascii) :=
  match s with
  | [] => [[]]
  | c :: s' =>
      if is_newline c then [] :: lines s'
      else match lines s' with
           | l :: ls => (c :: l) :: ls
           | [] => [[c]]
           end
  end.

(** A line that holds only [[blockname]]: blanks, an opening bracket, a
    non-empty name of letters, digits, [_], [.] and [-], a closing bracket,
    blanks. *)
Definition header_line (l : list ascii) : bool :=
  let '(_, l1) := span is_space l in
  match l1 with
  | c :: l2 =>
      (code c =? 91)%N
      && let '(name, l3) := span is_name_char l2 in
         match name, l3 with
         | _ :: _, c' :: l4 => (code c' =? 93)%N && forallb is_space l4
         | _, _ => false
         end
  | [] => false
  end.

Definition has_header_line (text : string) : bool :=
  existsb header_line (lines (list_ascii_of_string text)).

Definition first_line (s : list ascii) : list ascii := hd [] (lines s).

(** The blocks that the allow-list lets through. *)
Definition allowed (onlyBlocks : option (list string)) (blocks : list block)
  : list block :=
  filter (λ b, skipped onlyBlocks b = false) blocks.

(** The prerequisites a block declares with its [block = ...] line. *)
Definition declared (py_eval : string → EasyBuildError + PyValue)
    (blockContents : string) : option (list PyItem) :=
  match regDepBlock_search blockContents with
  | Some group =>
      match py_eval group with
      | inr (PyList deps) => Some deps
      | inr (PyScalar v) => Some [v]
      | inl _ => None
      end
  | None => None
  end.

Definition join (l : list string) : string := foldr String.append EmptyString l.

(** What claim C7 says the file of a block holds: the prelude, the
    contents of the prerequisite blocks in declared order, the contents of
    the block. *)
Definition claimed_text (common : string) (prerequisites : list block)
    (b : block) : string :=
  common +:+ join (map contents prerequisites) +:+ contents b.

(** What the code writes: the same with a comment line before each
    part. *)
Definition written_text (common : string) (prerequisites : list block)
    (b : block) : string :=
  common
  +:+ join (map (λ d, (nl +:+ "# Dependency block " +:+ name d)
                      +:+ contents d) prerequisites)
  +:+ (nl +:+ "# Main block " +:+ name b) +:+ contents b.

End Blocks.

(** ** Dependency resolution *)

Module Resolve.

(** Local state of [resolveDependencies].  [unprocessed] is the caller's
    list object, [world] is whatever the robot reads and writes (the file
    system). *)
Record State (W : Type) : Type := mk_State {
  unprocessed : list easyconfig;
  processed : list ModuleId;
  orderedSpecs : list easyconfig;
  world : W
}.
Arguments mk_State {W}.
Arguments unprocessed {W}.
Arguments processed {W}.
Arguments orderedSpecs {W}.
Arguments world {W}.

Definition maxloopcnt : Z := 10000.

(** [findResolvedModules]: the [for] loop.  Returns the scanned modules with
    their updated dependency lists, the local [orderedSpecs] and the
    extended [processed].  The assignment [module['dependencies'] = ...]
    updates the dict in place; every dict of the list is an object of its
    own (each one is built by [processEasyconfig]), so the update is
    rendered as replacing that record in the list. *)
Fixpoint scan_modules (todo : list easyconfig) (processed : list ModuleId)
  : list easyconfig * list easyconfig * list ModuleId :=
  match todo with
  | [] => ([], [], processed)
  | module0 :: todo' =>
      let module1 :=
        set_dependencies module0
          (filter (λ d, d ∉ processed) (dependencies module0)) in
      if decide (length (dependencies module1) = 0%nat) then
        let '(seen, ordered, processed') :=
          scan_modules todo' (processed ++ [module module1]) in
        (module1 :: seen, module1 :: ordered, processed')
      else
        let '(seen, ordered, processed') := scan_modules todo' processed in
        (module1 :: seen, ordered, processed')
  end.

(** [findResolvedModules(unprocessed, processed, log)]: result is
    [(orderedSpecs, unprocessed, processed)], the last two being the new
    contents of the two list objects the caller passed in. *)
Definition findResolvedModules (unprocessed : list easyconfig)
    (processed : list ModuleId)
  : list easyconfig * list easyconfig * list ModuleId :=
  let '(seen, ordered, processed') := scan_modules unprocessed processed in
  (ordered,
   filter (λ m, (0 < length (dependencies m))%nat) seen,
   processed').

(** The dict [missingDependencies] filled by the two nested loops. *)
Definition missingDependencies (unprocessed : list easyconfig)
  : gmap ModuleId bool :=
  foldl (λ acc module0,
           foldl (λ acc' dep, <[dep := true]> acc') acc (dependencies module0))
        ∅ unprocessed.

Section resolver.
Context {W : Type}.

(** [Modules().available()]. *)
Variable available : list ModuleId.
(** [easyconfig.create_paths], [os.path.isfile], [os.path.abspath]. *)
Variable create_paths : string → string → string → list string.
Variable isfile : W → string → bool.
Variable abspath : string → string.
(** [processEasyconfig(path, log, validate=...)] as seen by the resolver:
    it may raise, and it may write block files. *)
Variable processEasyconfig :
  string → bool → W → EasyBuildError + (W * list easyconfig).

(** [robotFindEasyconfig(log, path, module)]. *)
Definition robotFindEasyconfig (w : W) (path : string) (module0 : ModuleId)
  : option string :=
  let '(name, version) := module0 in
  let easyconfigsPaths := create_paths path name version in
  match filter (λ p, isfile w p = true) easyconfigsPaths with
  | easyconfigPath :: _ => Some (abspath easyconfigPath)
  | [] => None
  end.

(** The inner [while len(processed) > lastProcessedCount] loop. *)
Fixpoint resolve_loop (fuel : nat) (lastProcessedCount : Z) (st : State W)
  : option (State W) :=
  if decide (lastProcessedCount < Z.of_nat (length (processed st))) then
    match fuel with
    | O => None
    | S fuel' =>
        let lastProcessedCount := Z.of_nat (length (processed st)) in
        let '(new, unprocessed', processed') :=
          findResolvedModules (unprocessed st) (processed st) in
        resolve_loop fuel' lastProcessedCount
          (mk_State unprocessed' processed' (orderedSpecs st ++ new)
                    (world st))
    end
  else Some st.

Variable robot : option string.
Variable force : bool.

Definition candidates_of (beingInstalled : list ModuleId)
    (module0 : easyconfig) : list ModuleId :=
  filter (λ d, d ∉ beingInstalled) (dependencies module0).

(** The [for module in unprocessed] loop of the robot.  [inr None]: the
    loop ran to its end without a [break]; [inr (Some st)]: the robot
    extended [unprocessed] and left the loop. *)
Fixpoint robot_for (beingInstalled : list ModuleId)
    (todo : list easyconfig) (st : State W)
  : EasyBuildError + option (State W) :=
  match todo with
  | [] => inr None
  | module0 :: todo' =>
      let candidates := candidates_of beingInstalled module0 in
      let path :=
        match candidates, robot with
        | c :: _, Some r => robotFindEasyconfig (world st) r c
        | _, _ => None
        end in
      match path, candidates with
      | Some p, c :: _ =>
          if truthy path then
            match processEasyconfig p (negb force) (world st) with
            | inl err => inl err
            | inr (w', processedSpecs) =>
                let mods := map module processedSpecs in
                if decide (c ∈ mods) then
                  inr (Some (mk_State (unprocessed st ++ processedSpecs)
                                      (processed st) (orderedSpecs st) w'))
                else inl (ModuleNotInFile p c)
            end
          else robot_for beingInstalled todo' st
      | _, _ => robot_for beingInstalled todo' st
      end
  end.

Definition robot_pass (st : State W) : EasyBuildError + option (State W) :=
  let beingInstalled := map module (unprocessed st) in
  robot_for beingInstalled (unprocessed st) st.

(** The outer [while robotAddedDependency] loop.  The result carries the
    final value of [loopcnt]; [None] only when the fuel is used up. *)
Fixpoint robot_loop (fuel : nat) (loopcnt : Z) (st : State W)
  : option (Z * (EasyBuildError + State W)) :=
  match fuel with
  | O => None
  | S fuel' =>
      let loopcnt := loopcnt + 1 in
      if decide (maxloopcnt < loopcnt) then
        Some (loopcnt, inl (MaxLoopCnt maxloopcnt))
      else
        match resolve_loop (S (length (unprocessed st))) (-1) st with
        | None => None
        | Some st1 =>
            if truthy robot
               && bool_decide (0 < length (unprocessed st1))%nat then
              match robot_pass st1 with
              | inl err => Some (loopcnt, inl err)
              | inr (Some st2) => robot_loop fuel' loopcnt st2
              | inr None => Some (loopcnt, inr st1)
              end
            else Some (loopcnt, inr st1)
        end
  end.

Definition initial_state (unprocessed : list easyconfig) (w : W) : State W :=
  let availableModules := if force then [] else available in
  let beingInstalled := map module unprocessed in
  let processed := filter (λ m, m ∉ beingInstalled) availableModules in
  mk_State unprocessed processed [] w.

(** What the code after the outer loop does with the final state: raise
    when something is left, else return [orderedSpecs].  The caller's
    list and the world are returned with it. *)
Definition conclude (st : State W)
  : EasyBuildError + (list easyconfig * W * list easyconfig) :=
  if decide (0 < length (unprocessed st))%nat then
    inl (DependenciesNotMet (dom (missingDependencies (unprocessed st))))
  else inr (unprocessed st, world st, orderedSpecs st).

(** [resolveDependencies(unprocessed, robot, log, force)].  On success
    the triple is: contents of the caller's list after the call, the
    world, the returned list. *)
Definition resolveDependencies (unprocessed : list easyconfig) (w : W)
  : option (EasyBuildError + (list easyconfig * W * list easyconfig)) :=
  match robot_loop (Z.to_nat (maxloopcnt + 1)) 0
                   (initial_state unprocessed w) with
  | None => None
  | Some (_, inl err) => Some (inl err)
  | Some (_, inr st) => Some (conclude st)
  end.

(** [main]: the resolution step.  [resolveDependencies] is only called on
    a non-empty list. *)
Definition main_resolve (easyconfigs : list easyconfig) (w : W)
  : option (EasyBuildError + (list easyconfig * W * list easyconfig)) :=
  if decide (0 < length easyconfigs)%nat then
    resolveDependencies easyconfigs w
  else Some (inr (easyconfigs, w, [])).

End resolver.

(** [main]: the loop that ends it,
      [for easyconfig in easyconfigs:
         if 'originalSpec' in easyconfig: os.remove(easyconfig['spec'])].
    The result lists the paths handed to [os.remove]. *)
Definition main_cleanup (easyconfigs : list easyconfig) : list string :=
  map spec (filter (λ e, is_Some (originalSpec e)) easyconfigs).

End Resolve.

(** [resolveDependencies] with the robot reading real files: [isfile] looks
    the path up in the file system and the loader is [processEasyconfig]
    (called without [onlyBlocks]). *)
Definition resolveDependencies_on_files
    (py_eval : string → EasyBuildError + Blocks.PyValue)
    (mkstemp : gmap string string → string → string → string)
    (EasyConfig :
       gmap string string → string → bool → string + Blocks.EasyConfigObj)
    (available : list ModuleId)
    (create_paths : string → string → string → list string)
    (abspath : string → string) (robot : option string) (force : bool)
    (unprocessed : list easyconfig) (fs : gmap string string)
  : option (EasyBuildError
            + (list easyconfig * gmap string string * list easyconfig)) :=
  Resolve.resolveDependencies available create_paths
    (λ fs p, bool_decide (is_Some (fs !! p))) abspath
    (Blocks.processEasyconfig py_eval mkstemp EasyConfig None)
    robot force unprocessed fs.

(** ** The process, as the build drivers see it *)

(** The process environment, the working directory, and everything else a
    build can change (files, logs, the module tool). *)
Record Process (R : Type) : Type := mk_Process {
  environ : gmap string string;
  cwd : string;
  rest : R
}.
Arguments mk_Process {R}.
Arguments environ {R}.
Arguments cwd {R}.
Arguments rest {R}.

(** [os.chdir(path)]. *)
Definition chdir {R} (path : string) (p : Process R) : Process R :=
  mk_Process (environ p) path (rest p).

(** Modelled from the spec: [filetools.modifyEnv(os.environ, new)] is not
    part of [build.py]; the spec says it restores the process environment
    to the snapshot it is given.  The result is its truth value. *)
Definition modifyEnv {R} (new : gmap string string) (p : Process R)
  : Process R * bool :=
  (mk_Process new (cwd p) (rest p), true).

(** ** The regression-test driver: [build_easyconfigs] *)

Module Batch.

(** An exception caught by [except Exception, err]. *)
Record Exn : Type := mk_Exn {
  is_EasyBuildError : bool;     (* isinstance(err, EasyBuildError) *)
  str : string;                 (* str(err) *)
  format_exc : string           (* traceback.format_exc() *)
}.

(** An application instance.  Python hashes and compares it by identity:
    [app_id] is the position of its easyconfig in the batch. *)
Record App : Type := mk_App {
  app_id : nat;
  app_ec : easyconfig
}.

(** What [perform_step] is handed as [obj]. *)
Inductive Obj : Type :=
  | ODict (ec : easyconfig)
  | OApp (app : App).

(** A key of [build_stopped]: a spec path or an instance. *)
Definition Key : Type := string + nat.

Definition key_of_app (app : App) : Key := inr (app_id app).

(** The methods [build_easyconfigs] calls on an instance. *)
Inductive Method : Type :=
  | fetch_step | check_readiness_step | gen_installdir | make_builddir
  | checksum_step | extract_step | patch_step | prepare_step
  | configure_step | build_step | test_step | stage_install_step
  | make_installdir | install_step | extensions_step | package_step
  | post_install_step | sanity_check_step | cleanup_step | make_module_step
  | test_cases_step.

(** The [logfile] argument: the logger [log] or the path [applog]. *)
Inductive LogRef : Type :=
  | MainLog
  | LogFile (path : string).

(** An entry of [test_results]: [(obj, step, fullerr, logfile)], where
    [obj] is the spec path or the instance. *)
Record Failure : Type := mk_Failure {
  failed_obj : string + App;
  failed_step : string;
  failed_error : string;
  failed_log : LogRef
}.

(** How a call ends that [build_easyconfigs] does not survive. *)
Inductive Abort : Type :=
  | TypeError_unhashable_dict   (* [obj not in build_stopped] on a dict *)
  | SystemExit.                 (* [error(...)] after a failed log move *)

(** The local variables the loops share. *)
Record Batch (R : Type) : Type := mk_Batch {
  proc : Process R;
  test_results : list Failure;
  build_stopped : gmap Key string
}.
Arguments mk_Batch {R}.
Arguments proc {R}.
Arguments test_results {R}.
Arguments build_stopped {R}.

(** The steps taken under "take manual control over the build process", in
    order, with the name each is reported under. *)
Definition steps : list (string * Method) :=
  [("fetching files", fetch_step); ("check readiness", check_readiness_step);
   ("generate installdir name", gen_installdir);
   ("make builddir", make_builddir); ("unpacking", checksum_step);
   ("unpacking", extract_step); ("patching", patch_step);
   ("prepare", prepare_step); ("configure", configure_step);
   ("make", build_step); ("test", test_step);
   ("stage install", stage_install_step);
   ("create installdir", make_installdir); ("make install", install_step);
   ("extensions", extensions_step); ("package", package_step);
   ("postproc", post_install_step); ("sanity check", sanity_check_step);
   ("cleanup", cleanup_step); ("make module", make_module_step)].

(** The condition that opens [perform_step]:
    [(type(obj) == dict and obj['spec'] not in build_stopped)
     or obj not in build_stopped].
    For a dict whose path is in [build_stopped] the second operand is
    evaluated, and looking a dict up in a dict raises [TypeError]. *)
Definition can_build (obj : Obj) (build_stopped : gmap Key string)
  : Abort + bool :=
  match obj with
  | ODict ec =>
      if decide (inl (spec ec) ∉ dom build_stopped) then inr true
      else inl TypeError_unhashable_dict
  | OApp app => inr (bool_decide (key_of_app app ∉ dom build_stopped))
  end.

(** [fullerr]. *)
Definition fullerr (err : Exn) : string :=
  if is_EasyBuildError err then str err
  else format_exc err +:+ String "010" EmptyString +:+ str err.

Section driver.
Context {R : Type}.

(** [parbuild.get_instance(obj, log)]: it returns or raises. *)
Variable get_instance : easyconfig → Process R → Process R * option Exn.
(** A method of the instance: it returns or raises. *)
Variable call : Method → App → Process R → Process R * option Exn.
(** [app.cfg['tests']], as a truth value. *)
Variable has_tests : App → bool.
(** [app.close_log()] and [shutil.move(app.logfile, applog)]; [false] when
    the move raises [IOError]. *)
Variable move_log : App → string → Process R → Process R * bool.
(** [os.path.join(output_dir, "%s-%s.log" % (app.name, ...))]. *)
Variable applog_path : string → App → string.

(** The [except] clause of [perform_step]. *)
Definition record_failure (obj : string + App) (step : string) (err : Exn)
    (logfile : LogRef) (b : Batch R) (p : Process R) : Batch R :=
  let key : Key :=
    match obj with
    | inl path => inl path
    | inr app => key_of_app app
    end in
  mk_Batch p (test_results b ++ [mk_Failure obj step (fullerr err) logfile])
           (<[key := step]> (build_stopped b)).

(** [perform_step('initialization', ec, None, log)].  [idx] is the identity
    the new instance gets.  The result is the instance, or [None]. *)
Definition perform_initialization (idx : nat) (ec : easyconfig) (b : Batch R)
  : Abort + (Batch R * option App) :=
  match can_build (ODict ec) (build_stopped b) with
  | inl abort => inl abort
  | inr false => inr (b, None)
  | inr true =>
      match get_instance ec (proc b) with
      | (p, None) =>
          inr (mk_Batch p (test_results b) (build_stopped b),
               Some (mk_App idx ec))
      | (p, Some err) =>
          inr (record_failure (inl (spec ec)) "initialization" err MainLog b p,
               None)
      end
  end.

(** [perform_step(step, app, lambda x: x.method(), applog)] for any other
    step. *)
Definition perform_step (step : string) (app : App) (method : Method)
    (logfile : LogRef) (b : Batch R) : Abort + Batch R :=
  match can_build (OApp app) (build_stopped b) with
  | inl abort => inl abort
  | inr false => inr b
  | inr true =>
      match call method app (proc b) with
      | (p, None) => inr (mk_Batch p (test_results b) (build_stopped b))
      | (p, Some err) => inr (record_failure (inr app) step err logfile b p)
      end
  end.

(** The "initialize all instances" loop. *)
Fixpoint initialize_all (idx : nat) (easyconfigs : list easyconfig)
    (b : Batch R) : Abort + (Batch R * list (option App)) :=
  match easyconfigs with
  | [] => inr (b, [])
  | ec :: easyconfigs' =>
      match perform_initialization idx ec b with
      | inl abort => inl abort
      | inr (b1, instance) =>
          match initialize_all (S idx) easyconfigs' b1 with
          | inl abort => inl abort
          | inr (b2, apps) => inr (b2, instance :: apps)
          end
      end
  end.

(** A run of [perform_step] calls on one instance. *)
Fixpoint perform_steps (todo : list (string * Method)) (app : App)
    (logfile : LogRef) (b : Batch R) : Abort + Batch R :=
  match todo with
  | [] => inr b
  | (step, method) :: todo' =>
      match perform_step step app method logfile b with
      | inl abort => inl abort
      | inr b1 => perform_steps todo' app logfile b1
      end
  end.

(** The body of [for app in apps] for an instance that exists.  The result
    also tells whether the instance goes to [succes]. *)
Definition build_app (output_dir : string) (skip_test_cases : bool)
    (base_dir : string) (base_env : gmap string string) (app : App)
    (b : Batch R) : Abort + (Batch R * bool) :=
  let applog := applog_path output_dir app in
  (* start with a clean slate *)
  let p := fst (modifyEnv base_env (chdir base_dir (proc b))) in
  let b := mk_Batch p (test_results b) (build_stopped b) in
  match perform_steps steps app (LogFile applog) b with
  | inl abort => inl abort
  | inr b1 =>
      match
        (if negb skip_test_cases && has_tests app then
           perform_step "test cases" app test_cases_step (LogFile applog) b1
         else inr b1)
      with
      | inl abort => inl abort
      | inr b2 =>
          match move_log app applog (proc b2) with
          | (p3, false) => inl SystemExit
          | (p3, true) =>
              let b3 := mk_Batch p3 (test_results b2) (build_stopped b2) in
              inr (b3, bool_decide (key_of_app app ∉ dom (build_stopped b3)))
          end
      end
  end.

(** The [for app in apps] loop; [succes] collects the instances. *)
Fixpoint build_all (output_dir : string) (skip_test_cases : bool)
    (base_dir : string) (base_env : gmap string string)
    (apps : list (option App)) (b : Batch R) (succes : list App)
  : Abort + (Batch R * list App) :=
  match apps with
  | [] => inr (b, succes)
  | None :: apps' =>
      build_all output_dir skip_test_cases base_dir base_env apps' b succes
  | Some app :: apps' =>
      match build_app output_dir skip_test_cases base_dir base_env app b with
      | inl abort => inl abort
      | inr (b1, ok) =>
          build_all output_dir skip_test_cases base_dir base_env apps' b1
            (if ok then succes ++ [app] else succes)
      end
  end.

(** What [build_easyconfigs] hands to [write_to_xml], with the two counts
    it logs. *)
Record Report : Type := mk_Report {
  final : Process R;
  succes : list App;
  results : list Failure;
  failed : nat;
  total : nat
}.

(** [build_easyconfigs(easyconfigs, output_dir, test_results, options,
    log)]. *)
Definition build_easyconfigs (easyconfigs : list easyconfig)
    (output_dir : string) (test_results0 : list Failure)
    (skip_test_cases : bool) (p : Process R) : Abort + Report :=
  match initialize_all 0 easyconfigs (mk_Batch p test_results0 ∅) with
  | inl abort => inl abort
  | inr (b, apps) =>
      let base_dir := cwd (proc b) in
      let base_env := environ (proc b) in
      match build_all output_dir skip_test_cases base_dir base_env apps b []
      with
      | inl abort => inl abort
      | inr (b1, succes) =>
          inr (mk_Report (proc b1) succes (test_results b1)
                         (size (build_stopped b1)) (length apps))
      end
  end.

End driver.

(** *** What the claims say of one instance *)

Section one_instance.
Context {R : Type}.
Variable call : Method → App → Process R → Process R * option Exn.
Variable has_tests : App → bool.
Variable move_log : App → string → Process R → Process R * bool.
Variable applog_path : string → App → string.

(** The methods of one instance run in order until one raises: the process
    this leaves and, if one raised, its step and the exception. *)
Fixpoint run_until_failure (todo : list (string * Method)) (app : App)
    (p : Process R) : Process R * option (string * Exn) :=
  match todo with
  | [] => (p, None)
  | (step, method) :: todo' =>
      match call method app p with
      | (p', None) => run_until_failure todo' app p'
      | (p', Some err) => (p', Some (step, err))
      end
  end.

(** The steps of an instance, with the conditional last one. *)
Definition all_steps (skip_test_cases : bool) (app : App)
  : list (string * Method) :=
  steps ++ (if negb skip_test_cases && has_tests app then
              [("test cases", test_cases_step)]
            else []).

(** One instance built on its own from the baseline: its steps run until
    one fails, a failure is recorded, the log is moved. *)
Definition build_app_alone (output_dir : string) (skip_test_cases : bool)
    (base_dir : string) (base_env : gmap string string) (app : App)
    (b : Batch R) : Batch R * bool :=
  let applog := applog_path output_dir app in
  let p0 := mk_Process base_env base_dir (rest (proc b)) in
  match run_until_failure (all_steps skip_test_cases app) app p0 with
  | (p1, None) =>
      (mk_Batch (move_log app applog p1).1 (test_results b)
                (build_stopped b), true)
  | (p1, Some (step, err)) =>
      let b1 := record_failure (inr app) step err (LogFile applog) b p1 in
      (mk_Batch (move_log app applog p1).1 (test_results b1)
                (build_stopped b1), false)
  end.

(** All instances built that way, one after the other. *)
Fixpoint build_all_alone (output_dir : string) (skip_test_cases : bool)
    (base_dir : string) (base_env : gmap string string)
    (apps : list (option App)) (b : Batch R) (succes : list App)
  : Batch R * list App :=
  match apps with
  | [] => (b, succes)
  | None :: apps' =>
      build_all_alone output_dir skip_test_cases base_dir base_env apps' b
        succes
  | Some app :: apps' =>
      let '(b1, ok) :=
        build_app_alone output_dir skip_test_cases base_dir base_env app b in
      build_all_alone output_dir skip_test_cases base_dir base_env apps' b1
        (if ok then succes ++ [app] else succes)
  end.

End one_instance.

(** The methods of the instances, with [fetch_step] only ever shown the
    process with the environment [env] and the working directory [dir]. *)
Definition with_clean_fetch {R} (env : gmap string string) (dir : string)
    (call : Method → App → Process R → Process R * option Exn)
  : Method → App → Process R → Process R * option Exn :=
  λ method,
    match method with
    | fetch_step =>
        λ app p, call fetch_step app (mk_Process env dir (rest p))
    | _ => call method
    end.

End Batch.

(** ** The session: [main] and [build_and_install_software] *)

Module Session.

(** How [app.run_all_steps(...)] ends. *)
Inductive StepsResult : Type :=
  | Returned (result : bool)
  | RaisedEasyBuildError (msg : string)
  | RaisedOther (what : string).

(** An exception that leaves [build_and_install_software]: the
    [EasyBuildError] that [log.exception] and [log.error] raise, with its
    message, or another one. *)
Inductive Exception : Type :=
  | EasyBuildError_raised (msg : string)
  | Other (what : string).

(** How a part of [build_and_install_software] ends: it gets to its end,
    it reaches a call of [error(...)], or it raises. *)
Inductive Ending : Type :=
  | Done
  | Error_called
  | Raised (exn : Exception).

(** How [build_and_install_software] ends. *)
Inductive Outcome (R : Type) : Type :=
  | Return (p : Process R) (success : bool)
  | Exit (exitCode : Z)
  | Raise (exn : Exception).
Arguments Return {R}.
Arguments Exit {R}.
Arguments Raise {R}.

(** How the build loop of [main] ends before its end. *)
Inductive Stopped : Type :=
  | ExitCode (exitCode : Z)
  | Uncaught (exn : Exception).

(** [err.msg[-lastn:]]. *)
Definition last_chars (lastn : nat) (msg : string) : string :=
  let l := list_ascii_of_string msg in
  string_of_list_ascii (drop (length l - lastn) l).

(** ["autoBuild Failed (last %d chars): %s" % (lastn, err.msg[-lastn:])]. *)
Definition errormsg (msg : string) : string :=
  "autoBuild Failed (last 300 chars): " +:+ last_chars 300 msg.

Section session.
Context {R : Type}.

(** Finding the easyblock and creating the instance ("load easyblock" up
    to [app_class(spec, ...)]).  [Error_called]: [get_class] or the class
    raises [EasyBuildError], which the [except] clause answers with
    [error(...)]. *)
Variable load_easyblock : easyconfig → Process R → Process R * Ending.
(** [app.run_all_steps(...)]. *)
Variable run_all_steps : easyconfig → Process R → Process R * StepsResult.
(** What follows the steps up to [del app]: statistics, repository, log
    files, messages.  [Error_called]: one of its [error(...)] calls is
    reached; [Raised]: its [log.error] is. *)
Variable wrap_up : easyconfig → bool → Process R → Process R * Ending.

(** [build_and_install_software(module, options, log, origEnviron,
    exitOnFailure)].  When [run_all_steps] raises [EasyBuildError], the
    [except] clause calls [log.exception(errormsg)], which raises: the
    [result = False] after it is never reached. *)
Definition build_and_install_software (module0 : easyconfig)
    (origEnviron : gmap string string) (exitOnFailure : bool)
    (p : Process R) : Outcome R :=
  (* restore original environment *)
  match modifyEnv origEnviron p with
  | (p1, false) => Exit 1
  | (p1, true) =>
      let cwd0 := cwd p1 in
      match load_easyblock module0 p1 with
      | (p2, Error_called) => Exit 1
      | (p2, Raised exn) => Raise exn
      | (p2, Done) =>
          match run_all_steps module0 p2 with
          | (p3, RaisedEasyBuildError msg) =>
              Raise (EasyBuildError_raised (errormsg msg))
          | (p3, RaisedOther what) => Raise (Other what)
          | (p3, Returned result) =>
              match wrap_up module0 result p3 with
              | (p4, Error_called) => Exit 1
              | (p4, Raised exn) => Raise exn
              | (p4, Done) =>
                  let exitCode : Z := if result then 0 else 1 in
                  let p5 := chdir cwd0 p4 in
                  if decide (0 < exitCode) then
                    (* don't exit on failure in test suite *)
                    if exitOnFailure then Exit exitCode else Return p5 false
                  else Return p5 true
              end
          end
      end
  end.

(** [main]: the loop "build software, will exit when errors occurs".  The
    result carries [correct_built_cnt] and [all_built_cnt]. *)
Fixpoint build_loop (origEnviron : gmap string string)
    (orderedSpecs : list easyconfig) (p : Process R)
    (correct_built_cnt all_built_cnt : nat)
  : Stopped + (Process R * nat * nat) :=
  match orderedSpecs with
  | [] => inr (p, correct_built_cnt, all_built_cnt)
  | spec0 :: orderedSpecs' =>
      match build_and_install_software spec0 origEnviron true p with
      | Exit exitCode => inl (ExitCode exitCode)
      | Raise exn => inl (Uncaught exn)
      | Return p1 success =>
          build_loop origEnviron orderedSpecs' p1
            (if success then S correct_built_cnt else correct_built_cnt)
            (S all_built_cnt)
      end
  end.

(** [main], from "take snapshot of environment" on, for the list of specs
    that resolution returns.  [None]: [os.environ['PWD']] raises. *)
Definition main_build (orderedSpecs : list easyconfig) (p : Process R)
  : option (Stopped + (Process R * nat * nat)) :=
  let origEnviron := environ p in
  match environ p !! "PWD" with
  | None => None
  | Some pwd => Some (build_loop origEnviron orderedSpecs (chdir pwd p) 0 0)
  end.

End session.

(** An oracle that is only shown the process with the environment [env]
    and the working directory [dir]. *)
Definition from_baseline {R A B} (env : gmap string string) (dir : string)
    (f : A → Process R → B) : A → Process R → B :=
  λ a p, f a (mk_Process env dir (rest p)).

End Session.

(** ** Predicates used to state the properties of the resolver *)

Module ResolveSpec.
Import Resolve.

(** A spec as it sits in the returned list: its ['dependencies'] list has
    been emptied, everything else is as it was given. *)
Definition resolved (m : easyconfig) : easyconfig := set_dependencies m [].

(** [u] is the current content of the dict that was handed in as [r]: only
    ['dependencies'] changed, by dropping ids that are all in [P]. *)
Definition tracks (P : list ModuleId) (r u : easyconfig) : Prop :=
  u = set_dependencies r (dependencies u)
  ∧ ∃ Q : list ModuleId, (∀ d, d ∈ Q → d ∈ P)
         ∧ dependencies u = filter (λ d, d ∉ Q) (dependencies r).

(** Every dependency of the [i]-th element is in [P0] or is the module of an
    element at a smaller index. *)
Definition ordered_ok (P0 : list ModuleId) (L : list easyconfig) : Prop :=
  ∀ i s d, L !! i = Some s → d ∈ dependencies s →
           d ∈ P0 ∨ ∃ j t, (j < i)%nat ∧ L !! j = Some t ∧ module t = d.

(** Loop invariant of [resolveDependencies] over the specs [U] that have
    entered [unprocessed] so far. *)
Definition Inv {W} (P0 : list ModuleId) (U : list easyconfig) (st : State W)
  : Prop :=
  ∃ L R, orderedSpecs st = map resolved L
         ∧ Forall2 (tracks (processed st)) R (unprocessed st)
         ∧ U ≡ₚ L ++ R
         ∧ processed st = P0 ++ map module L
         ∧ ordered_ok P0 L.

(** Nothing in [unprocessed] can make progress: every remaining dependency
    is absent from [processed], and every spec has one. *)
Definition stuck {W} (st : State W) : Prop :=
  ∀ u, u ∈ unprocessed st →
       dependencies u ≠ [] ∧ ∀ d, d ∈ dependencies u → d ∉ processed st.

Section robot_spec.
Context {W : Type}.
Variable create_paths : string → string → string → list string.
Variable isfile : W → string → bool.
Variable abspath : string → string.
Variable processEasyconfig :
  string → bool → W → EasyBuildError + (W * list easyconfig).
Variable robot : option string.
Variable force : bool.

(** What the robot does with one module of [unprocessed]: the dependency
    it asks for and the path it gets, if it gets one. *)
Definition robot_choice (beingInstalled : list ModuleId) (w : W)
    (module0 : easyconfig) : option (ModuleId * string) :=
  match candidates_of beingInstalled module0, robot with
  | c :: _, Some r =>
      match robotFindEasyconfig create_paths isfile abspath w r c with
      | Some p => if truthy (Some p) then Some (c, p) else None
      | None => None
      end
  | _, _ => None
  end.

(** Loading the path the robot found for [c] and extending
    [unprocessed]. *)
Definition robot_extend (st : State W) (c : ModuleId) (p : string)
  : EasyBuildError + option (State W) :=
  match processEasyconfig p (negb force) (world st) with
  | inl err => inl err
  | inr (w', processedSpecs) =>
      if decide (c ∈ map module processedSpecs) then
        inr (Some (mk_State (unprocessed st ++ processedSpecs)
                            (processed st) (orderedSpecs st) w'))
      else inl (ModuleNotInFile p c)
  end.

(** The first module, in scan order, with a dependency that is not being
    installed, and the first such dependency. *)
Definition first_eligible (beingInstalled : list ModuleId)
    (l : list easyconfig) : option (easyconfig * ModuleId) :=
  match filter (λ m, candidates_of beingInstalled m ≠ []) l with
  | m :: _ =>
      match candidates_of beingInstalled m with
      | c :: _ => Some (m, c)
      | [] => None
      end
  | [] => None
  end.

End robot_spec.

End ResolveSpec.

(** ** Sample inputs *)

Module Samples.
Import Resolve.

(** An easyconfig of version 1.0 that depends on version 1.0 of [deps]. *)
Definition ec (name : string) (deps : list string) : easyconfig :=
  let ds := map (λ d, (d, "1.0")) deps in
  mk_easyconfig ("/eb/" +:+ name +:+ ".eb") (name, "1.0") ds None ds.

(** The same, as one block of the file [orig]. *)
Definition ec_block (orig name : string) (deps : list string) : easyconfig :=
  let ds := map (λ d, (d, "1.0")) deps in
  mk_easyconfig ("/tmp/easybuild-" +:+ name) (name, "1.0") ds (Some orig) ds.

(** A robot directory: its files and what [processEasyconfig] makes of
    each. *)
Definition repo : Type := list (string * list easyconfig).

Definition create_paths (path name version : string) : list string :=
  [path +:+ "/" +:+ name +:+ "-" +:+ version +:+ ".eb"].

Definition isfile (r : repo) (w : unit) (p : string) : bool :=
  bool_decide (p ∈ map fst r).

Definition abspath (p : string) : string := p.

Definition load_from_repo (r : repo) (p : string) (validate : bool)
    (w : unit) : EasyBuildError + (unit * list easyconfig) :=
  match list_find (λ e, e.1 = p) r with
  | Some (_, (_, specs)) => inr (w, specs)
  | None => inl (Propagated "IOError")
  end.

(** [B] and [C] need [A], [A] needs the installed module [X]. *)
Definition chain_specs : list easyconfig :=
  [ec "B" ["A"]; ec "A" ["X"]; ec "C" ["A"]].

(** A cycle between [A] and [B], and a [C] that needs the absent [X]. *)
Definition cyclic_specs : list easyconfig :=
  [ec "A" ["B"]; ec "B" ["A"]; ec "C" ["X"; "A"]].

(** Two specs with one missing dependency each; the robot directory only
    has a file for the second. *)
Definition two_specs : list easyconfig := [ec "A" ["X"]; ec "B" ["Y"]].
Definition only_Y : repo := [("/robot/Y-1.0.eb", [ec "Y" []])].

(** [A] needs [X] and the installed [Z]; the file the robot finds for [X]
    has two blocks, [X] and a [Z] that needs [A]. *)
Definition rebuild_specs : list easyconfig := [ec "A" ["X"; "Z"]].
Definition rebuild_repo : repo :=
  [("/robot/X-1.0.eb",
    [ec_block "/robot/X-1.0.eb" "X" []; ec_block "/robot/X-1.0.eb" "Z" ["A"]])].

(** Two blocks of one file, the second needing the first. *)
Definition block_specs : list easyconfig :=
  [ec_block "/eb/gcc.eb" "gcc" []; ec_block "/eb/gcc.eb" "gcc-mpi" ["gcc"]].

(** A robot directory with a file for every module it is asked for: the
    file describes that module and makes it depend on a module nobody has
    asked for yet (one more ["x"] in the version). *)
Definition endless_spec (version : string) : easyconfig :=
  let deps := [("dep", String "x" version)] in
  mk_easyconfig version ("dep", version) deps None deps.

Definition endless_create_paths (path name version : string) : list string :=
  [version].

Definition endless_isfile (w : unit) (p : string) : bool := true.

Definition endless_process (p : string) (validate : bool) (w : unit)
  : EasyBuildError + (unit * list easyconfig) := inr (w, [endless_spec p]).

Fixpoint xs (n : nat) : string :=
  match n with
  | O => EmptyString
  | S n' => String "x" (xs n')
  end.

(** What [unprocessed] holds after [k] passes of that robot. *)
Definition endless_chain (k : nat) : list easyconfig :=
  (λ i, endless_spec (xs (S i))) <$> seq 0 (S k).

(** A file with a prelude and two blocks, [B] declaring [A] as its
    prerequisite. *)
Definition two_blocks : string :=
  "name = 'gcc'" +:+ Blocks.nl
  +:+ "[A]" +:+ Blocks.nl +:+ "a = 1" +:+ Blocks.nl
  +:+ "[B]" +:+ Blocks.nl +:+ "block = 'A'" +:+ Blocks.nl
  +:+ "b = 2" +:+ Blocks.nl.

Definition one_block : string :=
  "name = 'gcc'" +:+ Blocks.nl +:+ "version = '4.6'" +:+ Blocks.nl.

Definition sample_fs : gmap string string :=
  {[ "/eb/gcc.eb" := two_blocks; "/eb/plain.eb" := one_block ]}.

(** [eval] for the right-hand sides used here: a quoted name. *)
Definition sample_eval (group : string) : EasyBuildError + Blocks.PyValue :=
  let quote c := (Blocks.code c =? 39)%N in
  inr (Blocks.PyScalar
         (Blocks.PyStr
            (string_of_list_ascii
               (filter (λ c, Blocks.is_space c || quote c = false)
                       (list_ascii_of_string group))))).

(** [mkstemp] without the random part of the name. *)
Definition sample_mkstemp (fs : gmap string string) (prefix suffix : string)
  : string := "/tmp/" +:+ prefix +:+ suffix.

(** A batch for the regression test: [broken.eb] cannot be instantiated,
    [good.eb] builds, and the configure step of [failing.eb] raises. *)
Definition broken : easyconfig := ec "broken" [].
Definition good : easyconfig := ec "good" [].
Definition failing : easyconfig := ec "failing" [].

Definition sample_get_instance (e : easyconfig) (p : Process unit)
  : Process unit * option Batch.Exn :=
  if decide (spec e = spec broken) then
    (p, Some (Batch.mk_Exn true "no easyblock" EmptyString))
  else (p, None).

(** Every method leaves its name in the environment. *)
Definition sample_call (method : Batch.Method) (app : Batch.App)
    (p : Process unit) : Process unit * option Batch.Exn :=
  let p' := mk_Process (<["LAST" := spec (Batch.app_ec app)]> (environ p))
                       "/build" tt in
  match method with
  | Batch.configure_step =>
      if decide (spec (Batch.app_ec app) = spec failing) then
        (p', Some (Batch.mk_Exn true "configure failed" EmptyString))
      else (p', None)
  | _ => (p', None)
  end.

Definition sample_has_tests (app : Batch.App) : bool := false.

Definition sample_move_log (app : Batch.App) (applog : string)
    (p : Process unit) : Process unit * bool := (p, true).

Definition sample_applog_path (output_dir : string) (app : Batch.App)
  : string :=
  output_dir +:+ "/" +:+ (module (Batch.app_ec app)).1 +:+ ".log".

Definition sample_process : Process unit :=
  mk_Process {[ "PWD" := "/home/user"; "PATH" := "/usr/bin" ]} "/somewhere" tt.

(** The same for [main]: every build succeeds and changes the
    environment and the working directory. *)
Definition sample_load (e : easyconfig) (p : Process unit)
  : Process unit * Session.Ending := (p, Session.Done).

Definition sample_run (e : easyconfig) (p : Process unit)
  : Process unit * Session.StepsResult :=
  (mk_Process (<["CC" := spec e]> (environ p)) "/build" tt,
   Session.Returned true).

Definition sample_wrap_up (e : easyconfig) (result : bool) (p : Process unit)
  : Process unit * Session.Ending := (chdir "/home/user" p, Session.Done).

(** A parser for the sample files: the name is what precedes the first
    dash of the file name, the version is 1.0, there is no dependency and
    no toolkit. *)
Definition sample_EasyConfig (fs : gmap string string) (path : string)
    (validate : bool) : string + Blocks.EasyConfigObj :=
  match fs !! path with
  | None => inl "no such file"
  | Some _ =>
      let base := list_ascii_of_string (Blocks.basename path) in
      let name :=
        string_of_list_ascii
          (fst (Blocks.span (λ c, negb (Blocks.code c =? 45)%N) base)) in
      inr (Blocks.mk_EasyConfigObj name "1.0" [] ("dummy", "dummy"))
  end.

Definition robot_fs : gmap string string :=
  {[ "/robot/Y-1.0.eb" := one_block ]}.

End Samples.

(** * Properties *)

Module BlocksFacts.
Import Blocks.

(** *** Header lines and the header expression *)

Lemma newline_is_space c : is_newline c = true → is_space c = true.
Proof.
  unfold is_newline, is_space. intros ->%N.eqb_eq. reflexivity.
Qed.

Lemma first_line_cons c s :
  first_line (c :: s) = if is_newline c then [] else c :: first_line s.
Proof.
  unfold first_line. simpl. destruct (is_newline c); [done|].
  by destruct (lines s).
Qed.

Lemma tail_lines_cons c s :
  tl (lines (c :: s)) = if is_newline c then lines s else tl (lines s).
Proof. simpl. destruct (is_newline c); [done|]. by destruct (lines s). Qed.

Lemma lines_first_tail s : lines s = first_line s :: tl (lines s).
Proof.
  unfold first_line. destruct s as [|c s]; [done|]. simpl.
  destruct (is_newline c); [done|]. by destruct (lines s).
Qed.

Lemma lines_nonnil s : lines s ≠ [].
Proof.
  destruct s as [|c s]; [done|]. simpl. destruct (is_newline c); [done|].
  by destruct (lines s).
Qed.

Lemma has_header_split s :
  existsb header_line (lines s)
  = header_line (first_line s) || existsb header_line (tl (lines s)).
Proof.
  unfold first_line. pose proof (lines_nonnil s). by destruct (lines s).
Qed.

Lemma span_cons_true p c s :
  p c = true → span p (c :: s) = (c :: (span p s).1, (span p s).2).
Proof. intros H. simpl. rewrite H. by destruct (span p s). Qed.

Lemma span_cons_false p c s : p c = false → span p (c :: s) = ([], c :: s).
Proof. intros H. simpl. by rewrite H. Qed.

Lemma span_app p s : (span p s).1 ++ (span p s).2 = s.
Proof.
  induction s as [|c s IH]; [done|]. simpl. destruct (p c); [|done].
  destruct (span p s). simpl in *. by rewrite IH.
Qed.

Lemma span_forallb p s : forallb p (span p s).1 = true.
Proof.
  induction s as [|c s IH]; [done|]. simpl. destruct (p c) eqn:E; [|done].
  destruct (span p s). simpl in *. by rewrite E.
Qed.

Lemma span_stop p a c b :
  forallb p a = true → p c = false → span p (a ++ c :: b) = (a, c :: b).
Proof.
  intros Ha Hc. induction a as [|x a IH]; simpl.
  - by rewrite Hc.
  - simpl in Ha. apply andb_prop in Ha as [Hx Ha]. rewrite Hx, IH; done.
Qed.

Lemma header_line_space c l :
  is_space c = true → header_line (c :: l) = header_line l.
Proof.
  intros H. unfold header_line. rewrite span_cons_true by done. simpl.
  by destruct (span is_space l).
Qed.

Lemma regBlock_match_space c s :
  is_space c = true → regBlock_match (c :: s) = regBlock_match s.
Proof.
  intros H. unfold regBlock_match. rewrite span_cons_true by done. simpl.
  by destruct (span is_space s).
Qed.

Lemma first_line_app a b :
  forallb (λ c, negb (is_newline c)) a = true →
  first_line (a ++ b) = a ++ first_line b.
Proof.
  induction a as [|c a IH]; [done|]. simpl. intros [Hc Ha]%andb_prop.
  rewrite first_line_cons. apply negb_true_iff in Hc. rewrite Hc.
  by rewrite IH.
Qed.

Lemma name_char_not_newline c :
  is_name_char c = true → negb (is_newline c) = true.
Proof.
  unfold is_name_char, is_word, is_newline. intros H.
  destruct (code c =? 10)%N eqn:E; [|done]. apply N.eqb_eq in E.
  rewrite E in H. discriminate H.
Qed.

Lemma name_not_newline l :
  forallb is_name_char l = true →
  forallb (λ c, negb (is_newline c)) l = true.
Proof.
  induction l as [|x l IH]; [done|]. simpl. intros [Hx Hl]%andb_prop.
  rewrite (name_char_not_newline _ Hx). by apply IH.
Qed.

(** The blanks after the closing bracket, up to the end of the line. *)
Lemma first_line_blanks w s5 :
  forallb is_space w = true →
  (s5 = [] ∨ cut_last_newline w ≠ None) →
  forallb is_space (first_line (w ++ s5)) = true.
Proof.
  induction w as [|c w IH]; intros Hw Hs; simpl.
  - destruct Hs as [->|Hs]; done.
  - simpl in Hw. apply andb_prop in Hw as [Hc Hw].
    rewrite first_line_cons. destruct (is_newline c) eqn:E; [done|].
    simpl. rewrite Hc. apply IH; [done|].
    destruct Hs as [->|Hs]; [by left|right].
    intros Hn. apply Hs. simpl. rewrite Hn. by rewrite E.
Qed.

(** Where the header expression matches, a header line starts. *)
Lemma regBlock_match_header s r :
  regBlock_match s = Some r → existsb header_line (lines s) = true.
Proof.
  induction s as [|c s IH]; [done|].
  destruct (is_space c) eqn:Hsp.
  - rewrite regBlock_match_space by done. intros H. specialize (IH H).
    rewrite has_header_split, first_line_cons, tail_lines_cons.
    destruct (is_newline c).
    + rewrite IH. apply orb_true_r.
    + rewrite header_line_space by done. by rewrite <- has_header_split.
  - clear IH. unfold regBlock_match. rewrite span_cons_false by done.
    destruct (code c =? 91)%N eqn:Hc; [|done].
    destruct (span is_name_char s) as [name s3] eqn:E3.
    destruct name as [|n name]; [done|].
    destruct s3 as [|c' s4]; [done|].
    destruct (code c' =? 93)%N eqn:Hc'; [|done].
    destruct (span is_space s4) as [w s5] eqn:E5. intros Hm.
    assert (forallb is_space (first_line (w ++ s5)) = true) as Hblank.
    { apply first_line_blanks.
      - pose proof (span_forallb is_space s4) as Hf. by rewrite E5 in Hf.
      - destruct s5; [by left|right].
        by destruct (cut_last_newline w) as [[??]|]. }
    pose proof (span_app is_name_char s) as Hs. rewrite E3 in Hs. simpl in Hs.
    pose proof (span_app is_space s4) as Hs4. rewrite E5 in Hs4. simpl in Hs4.
    pose proof (span_forallb is_name_char s) as Hname. rewrite E3 in Hname.
    simpl in Hname.
    assert (is_name_char c' = false) as Hnc.
    { apply N.eqb_eq in Hc'. unfold is_name_char, is_word. by rewrite Hc'. }
    assert (is_newline c = false) as Hnl.
    { apply N.eqb_eq in Hc. unfold is_newline. by rewrite Hc. }
    assert (is_newline c' = false) as Hnl'.
    { apply N.eqb_eq in Hc'. unfold is_newline. by rewrite Hc'. }
    rewrite has_header_split, first_line_cons, Hnl.
    apply orb_true_iff. left. unfold header_line.
    rewrite span_cons_false by done. rewrite Hc. simpl.
    rewrite <- Hs. change (n :: name ++ c' :: s4) with ((n :: name) ++ c' :: s4).
    rewrite (first_line_app (n :: name)).
    + rewrite first_line_cons, Hnl'. rewrite span_stop by done.
      rewrite Hc'. simpl. by rewrite <- Hs4.
    + by apply name_not_newline.
Qed.

(** Without a header line the split returns the text as its only piece. *)
Lemma split_from_no_header fuel (bol : bool) (s : list ascii) :
  existsb header_line (if bol then lines s else tl (lines s)) = false →
  split_from fuel bol s = (s, []).
Proof.
  revert bol s. induction fuel as [|fuel IH]; intros bol s H; [done|].
  simpl.
  assert ((if bol then regBlock_match s else None) = None) as ->.
  { destruct bol; [|done]. destruct (regBlock_match s) as [r|] eqn:E; [|done].
    apply regBlock_match_header in E. congruence. }
  destruct s as [|c s]; [done|]. rewrite IH; [done|].
  destruct bol.
  - rewrite has_header_split in H.
    apply orb_false_iff in H as [_ H]. rewrite tail_lines_cons in H.
    by destruct (is_newline c).
  - rewrite tail_lines_cons in H. destruct (is_newline c); [done|done].
Qed.

Lemma regBlock_split_no_header text :
  has_header_line text = false → regBlock_split text = [text].
Proof.
  intros H. unfold regBlock_split.
  rewrite (split_from_no_header _ true) by done. simpl.
  by rewrite string_of_list_ascii_of_string.
Qed.

(** *** The fuel of the split is never used up *)

Lemma cut_last_newline_app w pre suf :
  cut_last_newline w = Some (pre, suf) → w = pre ++ suf.
Proof.
  revert pre suf. induction w as [|c w IH]; intros pre suf; [done|]. simpl.
  destruct (cut_last_newline w) as [[pre0 suf0]|].
  - intros [= <- <-]. simpl. by rewrite (IH pre0 suf0).
  - destruct (is_newline c); [|done]. by intros [= <- <-].
Qed.

Lemma regBlock_match_shorter s name consumed rest :
  regBlock_match s = Some (name, consumed, rest) →
  (length rest < length s)%nat.
Proof.
  unfold regBlock_match.
  pose proof (span_app is_space s) as H1.
  destruct (span is_space s) as [w0 s1]. simpl in H1.
  destruct s1 as [|c s2]; [done|]. destruct (code c =? 91)%N; [|done].
  pose proof (span_app is_name_char s2) as H2.
  destruct (span is_name_char s2) as [nm s3]. simpl in H2.
  destruct nm as [|n nm]; [done|]. destruct s3 as [|c' s4]; [done|].
  destruct (code c' =? 93)%N; [|done].
  pose proof (span_app is_space s4) as H4.
  destruct (span is_space s4) as [w s5]. simpl in H4.
  apply (f_equal length) in H1, H2, H4.
  rewrite ?length_app in *. simpl in *. rewrite ?length_app in *. simpl in *.
  destruct s5 as [|x s5].
  - intros [= _ _ <-]. simpl. lia.
  - destruct (cut_last_newline w) as [[pre suf]|] eqn:E; [|done].
    apply cut_last_newline_app, (f_equal length) in E.
    rewrite length_app in E. intros [= _ _ <-].
    rewrite length_app. simpl in *. lia.
Qed.

Lemma split_from_fuel fuel fuel' (bol : bool) (s : list ascii) :
  (length s < fuel)%nat → (length s < fuel')%nat →
  split_from fuel bol s = split_from fuel' bol s.
Proof.
  revert fuel' bol s. induction fuel as [|fuel IH]; intros fuel' bol s H H'; [lia|].
  destruct fuel' as [|fuel']; [lia|]. simpl.
  destruct (if bol then regBlock_match s else None) as [[[nm cons] rest]|] eqn:E.
  - assert (length rest < length s)%nat as Hlt.
    { destruct bol; [|done]. by eapply regBlock_match_shorter. }
    rewrite (IH fuel') by lia. done.
  - destruct s as [|c s]; [done|]. simpl in *. rewrite (IH fuel') by lia. done.
Qed.

(** *** What is written for a block *)

Lemma append_nil_r (s : string) : s +:+ EmptyString = s.
Proof.
  induction s as [|a s IH]; [done|].
  change (String a s +:+ EmptyString) with (String a (s +:+ EmptyString)). by rewrite IH.
Qed.

Lemma append_assoc (s t u : string) : (s +:+ t) +:+ u = s +:+ t +:+ u.
Proof.
  induction s as [|a s IH]; [done|].
  change ((String a s +:+ t) +:+ u) with (String a ((s +:+ t) +:+ u)).
  change (String a s +:+ t +:+ u) with (String a (s +:+ t +:+ u)).
  by rewrite IH.
Qed.

Section splitter_facts.
Variable py_eval : string → EasyBuildError + PyValue.
Variable mkstemp : gmap string string → string → string → string.

(** Claim C8.  When no line of the file is a block header,
    [retrieveBlocksInSpec] returns the one-element list holding the path
    it was given, and the file system is what it was: no file is created
    and none is rewritten. *)
Theorem retrieveBlocksInSpec_no_header (fs : gmap string string) spec text onlyBlocks :
  fs !! spec = Some text →
  has_header_line text = false →
  retrieveBlocksInSpec py_eval mkstemp fs spec onlyBlocks = inr (fs, [spec]).
Proof.
  intros Hfs Hh. unfold retrieveBlocksInSpec.
  by rewrite Hfs, regBlock_split_no_header.
Qed.

Lemma write_dependencies_text blocks deps f text :
  write_dependencies blocks deps f = Some text →
  ∃ prerequisites,
    Forall2 (λ d p, d = PyStr (name p) ∧ p ∈ blocks) deps prerequisites
    ∧ text = f +:+ join (map (λ d, (nl +:+ "# Dependency block " +:+ name d)
                                   +:+ contents d) prerequisites).
Proof.
  revert f. induction deps as [|d deps IH]; intros f; simpl.
  - intros [= <-]. exists []. split; [constructor|].
    by rewrite append_nil_r.
  - destruct d as [d|]; [|done].
    destruct (filter (λ b, name b = d) blocks) as [|p ps] eqn:E; [done|].
    intros (prs & HF & ->)%IH. exists (p :: prs).
    assert (p ∈ filter (λ b, name b = d) blocks) as Hp by (rewrite E; by left).
    apply list_elem_of_filter in Hp as [Hn Hp]. split.
    + constructor; [by rewrite Hn|done].
    + simpl. by rewrite !append_assoc.
Qed.

Lemma write_block_text common blocks b text :
  write_block common blocks b = Some text →
  ∃ prerequisites,
    Forall2 (λ d p, d = PyStr (name p) ∧ p ∈ blocks)
            (default [] (dependencies b)) prerequisites
    ∧ text = written_text common prerequisites b.
Proof.
  unfold write_block, written_text.
  destruct (dependencies b) as [deps|]; simpl.
  - destruct (write_dependencies blocks deps common) as [f|] eqn:E; [|done].
    apply write_dependencies_text in E as (prs & HF & ->). intros [= <-].
    exists prs. split; [done|]. by rewrite !append_assoc.
  - intros [= <-]. exists []. split; [constructor|]. done.
Qed.

Lemma make_blocks_spec spec pieces acc blocks :
  make_blocks py_eval spec pieces acc = inr blocks →
  ∃ new,
    blocks = acc ++ new
    ∧ pieces = flat_map (λ b, [name b; contents b]) new
    ∧ (NoDup (map name acc) → NoDup (map name blocks))
    ∧ Forall (λ b, dependencies b = declared py_eval (contents b)) new.
Proof.
  revert acc. induction pieces as [pieces IH] using (induction_ltof1 _ length).
  unfold ltof in IH. intros acc.
  destruct pieces as [|blockName [|blockContents pieces']]; simpl.
  - intros [= <-]. exists []. rewrite app_nil_r. split_and!; done.
  - done.
  - case_decide as Hin; [done|].
    set (mk d := mk_block blockName blockContents d).
    assert (∀ d, d = declared py_eval blockContents →
              make_blocks py_eval spec pieces' (acc ++ [mk d]) = inr blocks →
              ∃ new, blocks = acc ++ new
                ∧ blockName :: blockContents :: pieces'
                  = flat_map (λ b, [name b; contents b]) new
                ∧ (NoDup (map name acc) → NoDup (map name blocks))
                ∧ Forall (λ b, dependencies b = declared py_eval (contents b))
                         new) as Hstep.
    { intros d Hd (new & -> & -> & Hnd & HF)%IH; [|simpl; lia].
      exists (mk d :: new). rewrite <- app_assoc. split_and!; [done|done| |].
      - intros Ha. rewrite app_assoc. apply Hnd. rewrite map_app. simpl.
        apply NoDup_app. split_and!; [done| |apply NoDup_singleton].
        intros x Hx ->%list_elem_of_singleton. done.
      - constructor; done. }
    unfold declared in Hstep.
    destruct (regDepBlock_search blockContents) as [group|].
    + destruct (py_eval group) as [err|[deps|v]]; [done| |]; by apply Hstep.
    + by apply Hstep.
Qed.

Lemma make_specs_spec spec cfgName common onlyBlocks blocks todo
    (fs : gmap string string) specs fs' specs' :
  make_specs mkstemp spec cfgName common onlyBlocks blocks todo fs specs
    = inr (fs', specs') →
  ∃ new,
    specs' = specs ++ new
    ∧ length new = length (allowed onlyBlocks todo)
    ∧ (∀ q, q ∉ new → fs' !! q = fs !! q)
    ∧ ∀ i b path,
        allowed onlyBlocks todo !! i = Some b → new !! i = Some path →
        is_Some (write_block common blocks b)
        ∧ (path ∉ drop (S i) new →
           fs' !! path = write_block common blocks b).
Proof.
  revert fs specs. induction todo as [|b todo IH]; intros fs specs; simpl.
  - intros [= <- <-]. exists []. rewrite app_nil_r. split_and!; done.
  - unfold allowed. destruct (skipped onlyBlocks b) eqn:Hsk.
    + rewrite filter_cons_False by (by rewrite Hsk). apply IH.
    + rewrite filter_cons_True by done.
      destruct (write_block common blocks b) as [text|] eqn:Hw; [|done].
      set (path0 := mkstemp fs _ _).
      intros (new & -> & Hlen & Hframe & Hnew)%IH.
      exists (path0 :: new). rewrite <- app_assoc. split_and!; [done|simpl; by rewrite Hlen| |].
      * intros q Hq. rewrite Hframe.
        -- apply lookup_insert_ne. intros ->. apply Hq. by left.
        -- intros ?. apply Hq. by right.
      * intros [|i] b' path Hb Hp; simpl in *.
        -- inversion Hb; inversion Hp; subst. rewrite Hw. split; [done|].
           rewrite drop_0. intros Hn. rewrite Hframe by done.
           by rewrite lookup_insert_eq.
        -- by apply Hnew.
Qed.

(** Claim C7, as the code has it.  For a file with headers, the blocks are
    the (name, text) pairs of the split, their names are distinct, and
    their prerequisites are what [eval] makes of their [block = ...] line.
    [retrieveBlocksInSpec] returns one path per block the allow-list lets
    through, in file order, and the file at that path (unless a later
    block was given the same path) holds: the prelude; for each
    prerequisite, in declared order, the line ["# Dependency block <name>"]
    and that block's text; the line ["# Main block <name>"] and the block's
    own text. *)
Theorem retrieveBlocksInSpec_text (fs : gmap string string) spec onlyBlocks
    text common pieces fs' specs :
  fs !! spec = Some text →
  regBlock_split text = common :: pieces → pieces ≠ [] →
  retrieveBlocksInSpec py_eval mkstemp fs spec onlyBlocks = inr (fs', specs) →
  ∃ blocks,
    pieces = flat_map (λ b, [name b; contents b]) blocks
    ∧ NoDup (map name blocks)
    ∧ Forall (λ b, dependencies b = declared py_eval (contents b)) blocks
    ∧ length specs = length (allowed onlyBlocks blocks)
    ∧ ∀ i b path,
        allowed onlyBlocks blocks !! i = Some b → specs !! i = Some path →
        ∃ prerequisites,
          Forall2 (λ d p, d = PyStr (name p) ∧ p ∈ blocks)
                  (default [] (dependencies b)) prerequisites
          ∧ (path ∉ drop (S i) specs →
             fs' !! path = Some (written_text common prerequisites b)).
Proof.
  intros Hfs Hsplit Hne. unfold retrieveBlocksInSpec. rewrite Hfs, Hsplit.
  destruct pieces as [|p0 ps]; [done|].
  destruct (make_blocks py_eval spec (p0 :: ps) []) as [err|blocks] eqn:Eb;
    [done|].
  apply make_blocks_spec in Eb as (new & Hb & Hp & Hnd & Hdecl).
  simpl in Hb. subst new.
  intros (new & Hs & Hlen & _ & Hnew)%make_specs_spec. simpl in Hs. subst new.
  exists blocks. split_and!; [done|apply Hnd; constructor|done|done|].
  intros i b path Hb Hpath.
  destruct (Hnew i b path Hb Hpath) as [[t Ht] Hfile].
  destruct (write_block_text _ _ _ _ Ht) as (prs & HF & ->).
  exists prs. split; [done|]. intros Hn. by rewrite Hfile.
Qed.

End splitter_facts.

Import Samples.

(** Claim C7 fails as worded.  For the blocks [A] and [B] (prerequisite
    [A]) of the sample file, the file written for [B] is not the prelude
    followed by the text of [A] and the text of [B]: each text is preceded
    by a comment line. *)
Lemma block_file_has_comment_lines :
  let A := mk_block "A" (nl +:+ "a = 1" +:+ nl) None in
  let B := mk_block "B" (nl +:+ "block = 'A'" +:+ nl +:+ "b = 2" +:+ nl)
                    (Some [PyStr "A"]) in
  let common := "name = 'gcc'" +:+ nl in
  ∃ fs',
    regBlock_split two_blocks
      = [common; name A; contents A; name B; contents B]
    ∧ retrieveBlocksInSpec sample_eval sample_mkstemp sample_fs "/eb/gcc.eb"
        None
      = inr (fs', ["/tmp/easybuild-gcc.eb-A"; "/tmp/easybuild-gcc.eb-B"])
    ∧ fs' !! "/tmp/easybuild-gcc.eb-B" = Some (written_text common [A] B)
    ∧ fs' !! "/tmp/easybuild-gcc.eb-B" ≠ Some (claimed_text common [A] B).
Proof.
  intros A B common. eexists. split_and!.
  - vm_compute. reflexivity.
  - vm_compute. reflexivity.
  - vm_compute. reflexivity.
  - vm_compute. discriminate.
Qed.

Lemma retrieveBlocksInSpec_text_witness :
  let A := mk_block "A" (nl +:+ "a = 1" +:+ nl) None in
  let B := mk_block "B" (nl +:+ "block = 'A'" +:+ nl +:+ "b = 2" +:+ nl)
                    (Some [PyStr "A"]) in
  ∃ blocks,
    [name A; contents A; name B; contents B]
      = flat_map (λ b, [name b; contents b]) blocks
    ∧ NoDup (map name blocks)
    ∧ Forall (λ b, dependencies b = declared sample_eval (contents b)) blocks
    ∧ length ["/tmp/easybuild-gcc.eb-B"] = length (allowed (Some ["B"]) blocks)
    ∧ ∀ i b path,
        allowed (Some ["B"]) blocks !! i = Some b →
        ["/tmp/easybuild-gcc.eb-B"] !! i = Some path →
        ∃ prerequisites,
          Forall2 (λ d p, d = PyStr (name p) ∧ p ∈ blocks)
                  (default [] (dependencies b)) prerequisites
          ∧ (path ∉ drop (S i) ["/tmp/easybuild-gcc.eb-B"] →
             (<["/tmp/easybuild-gcc.eb-B" :=
                  written_text ("name = 'gcc'" +:+ nl) [A] B]> sample_fs)
               !! path
             = Some (written_text ("name = 'gcc'" +:+ nl) prerequisites b)).
Proof.
  intros A B.
  apply (retrieveBlocksInSpec_text sample_eval sample_mkstemp sample_fs
           "/eb/gcc.eb" (Some ["B"]) two_blocks ("name = 'gcc'" +:+ nl)).
  - vm_compute. reflexivity.
  - vm_compute. reflexivity.
  - discriminate.
  - vm_compute. reflexivity.
Defined.

Lemma retrieveBlocksInSpec_no_header_witness :
  retrieveBlocksInSpec sample_eval sample_mkstemp sample_fs "/eb/plain.eb"
    (Some ["B"])
  = inr (sample_fs, ["/eb/plain.eb"]).
Proof.
  apply (retrieveBlocksInSpec_no_header sample_eval sample_mkstemp sample_fs
           "/eb/plain.eb" one_block).
  - vm_compute. reflexivity.
  - vm_compute. reflexivity.
Defined.

End BlocksFacts.

Module ResolveFacts.
Import Resolve ResolveSpec.

Lemma set_dependencies_id m : set_dependencies m (dependencies m) = m.
Proof. by destruct m. Qed.

Lemma scan_modules_shape todo P seen ordered P' :
  scan_modules todo P = (seen, ordered, P') →
  P' = P ++ map module ordered
  ∧ ordered = filter (λ m, length (dependencies m) = 0%nat) seen
  ∧ length seen = length todo.
Proof.
  revert P seen ordered P'.
  induction todo as [|m todo IH]; intros P seen ordered P' H; simpl in H.
  - inversion H; subst. by rewrite app_nil_r.
  - case_decide as Hd.
    + destruct (scan_modules todo _) as [[seen0 ord0] P0] eqn:E.
      inversion H; subst. destruct (IH _ _ _ _ E) as (-> & -> & Hl).
      split_and!.
      * by rewrite <- app_assoc.
      * rewrite filter_cons_True; done.
      * simpl. by rewrite Hl.
    + destruct (scan_modules todo _) as [[seen0 ord0] P0] eqn:E.
      inversion H; subst. destruct (IH _ _ _ _ E) as (-> & -> & Hl).
      split_and!; [done| |simpl; by rewrite Hl].
      rewrite filter_cons_False; done.
Qed.

(** The modules dropped from the caller's list by one call of
    [findResolvedModules] are those it returns, in scan order. *)
Lemma findResolvedModules_partition l P new l' P' :
  findResolvedModules l P = (new, l', P') →
  ∃ seen, length seen = length l
          ∧ new = filter (λ m, length (dependencies m) = 0%nat) seen
          ∧ l' = filter (λ m, (0 < length (dependencies m))%nat) seen
          ∧ P' = P ++ map module new.
Proof.
  unfold findResolvedModules.
  destruct (scan_modules l P) as [[seen ord] P1] eqn:E. intros H.
  inversion H; subst. destruct (scan_modules_shape _ _ _ _ _ E) as (-> & -> & Hl).
  by exists seen.
Qed.

Lemma filter_split_length {A} (P Q : A → Prop)
    `{∀ x, Decision (P x)} `{∀ x, Decision (Q x)} (l : list A) :
  (∀ x, P x ↔ ¬ Q x) →
  (length (filter P l) + length (filter Q l) = length l)%nat.
Proof.
  intros HPQ. induction l as [|x l IH]; [done|].
  destruct (decide (Q x)) as [Hq|Hq].
  - rewrite (filter_cons_True Q) by done.
    rewrite (filter_cons_False P) by (rewrite HPQ; tauto). simpl. lia.
  - rewrite (filter_cons_False Q) by done.
    rewrite (filter_cons_True P) by (by rewrite HPQ). simpl. lia.
Qed.

Lemma findResolvedModules_length l P new l' P' :
  findResolvedModules l P = (new, l', P') →
  (length new + length l' = length l)%nat
  ∧ length P' = (length P + length new)%nat.
Proof.
  intros (seen & Hl & -> & -> & ->)%findResolvedModules_partition.
  split.
  - rewrite <- Hl. apply filter_split_length. intros x. lia.
  - by rewrite length_app, length_map.
Qed.

(** *** One scan keeps track of every spec *)

Lemma filter_notin_nil (l : list ModuleId) : filter (λ d, d ∉ []) l = l.
Proof.
  induction l as [|d l IH]; [done|].
  rewrite filter_cons_True by apply not_elem_of_nil. by rewrite IH.
Qed.

Lemma filter_filter_notin (P Q l : list ModuleId) :
  filter (λ d, d ∉ P) (filter (λ d, d ∉ Q) l) = filter (λ d, d ∉ Q ++ P) l.
Proof.
  induction l as [|d l IH]; [done|].
  destruct (decide (d ∈ Q)) as [HQ|HQ].
  - rewrite (filter_cons_False (λ d, d ∉ Q)) by (intros H; by apply H).
    rewrite (filter_cons_False (λ d, d ∉ Q ++ P)); [done|].
    intros H. apply H, elem_of_app. by left.
  - rewrite (filter_cons_True (λ d, d ∉ Q)) by done.
    destruct (decide (d ∈ P)) as [HP|HP].
    + rewrite (filter_cons_False (λ d, d ∉ P)) by (intros H; by apply H).
      rewrite (filter_cons_False (λ d, d ∉ Q ++ P)); [done|].
      intros H. apply H, elem_of_app. by right.
    + rewrite (filter_cons_True (λ d, d ∉ P)) by done.
      rewrite (filter_cons_True (λ d, d ∉ Q ++ P)); [by rewrite IH|].
      intros [?|?]%elem_of_app; done.
Qed.

(** Filtering by a smaller list gives the same result when nothing that
    survives is in the larger one. *)
Lemma filter_notin_stable (P Q l : list ModuleId) :
  (∀ d, d ∈ Q → d ∈ P) →
  (∀ d, d ∈ filter (λ d, d ∉ Q) l → d ∉ P) →
  filter (λ d, d ∉ Q) l = filter (λ d, d ∉ P) l.
Proof.
  intros HQ. induction l as [|d l IH]; [done|]. intros Hs.
  destruct (decide (d ∈ Q)) as [Hd|Hd].
  - rewrite (filter_cons_False (λ d, d ∉ Q)) in * by (intros H; by apply H).
    rewrite (filter_cons_False (λ d, d ∉ P)); [by apply IH|].
    intros H. by apply H, HQ.
  - rewrite (filter_cons_True (λ d, d ∉ Q)) in * by done.
    rewrite (filter_cons_True (λ d, d ∉ P)) by (apply Hs; by left).
    f_equal. apply IH. intros ??. apply Hs. by right.
Qed.

Lemma tracks_refl P r : tracks P r r.
Proof.
  split; [by rewrite set_dependencies_id|]. exists [].
  split; [by intros ? ?%elem_of_nil|]. by rewrite filter_notin_nil.
Qed.

Lemma tracks_mono P P' r u :
  (∀ d, d ∈ P → d ∈ P') → tracks P r u → tracks P' r u.
Proof.
  intros HP (Hu & Q & HQ & Hd). split; [done|]. exists Q. split; [|done].
  intros d Hin. by apply HP, HQ.
Qed.

Lemma tracks_filter P r u :
  tracks P r u →
  tracks P r (set_dependencies u (filter (λ d, d ∉ P) (dependencies u))).
Proof.
  intros (Hu & Q & HQ & Hd). split.
  - rewrite Hu. by destruct r.
  - exists (Q ++ P). split.
    + intros d [?|?]%elem_of_app; [by apply HQ|done].
    + simpl. by rewrite Hd, filter_filter_notin.
Qed.

Lemma tracks_resolved P r u :
  tracks P r u → length (dependencies u) = 0%nat →
  u = resolved r ∧ ∀ d, d ∈ dependencies r → d ∈ P.
Proof.
  intros (Hu & Q & HQ & Hd) Hlen.
  destruct (dependencies u) as [|x l] eqn:E; [|done]. split; [done|].
  intros d Hin. destruct (decide (d ∈ Q)) as [|Hn]; [by apply HQ|].
  assert (d ∈ filter (λ d, d ∉ Q) (dependencies r)) as Hf
    by (by apply list_elem_of_filter).
  rewrite <- Hd in Hf. by apply elem_of_nil in Hf.
Qed.

(** For a spec that is stuck on [P], the remaining list is the original one
    without the ids of [P]. *)
Lemma tracks_unsatisfied P r u :
  tracks P r u → (∀ d, d ∈ dependencies u → d ∉ P) →
  u = set_dependencies r (filter (λ d, d ∉ P) (dependencies r)).
Proof.
  intros (Hu & Q & HQ & Hd) Hs. rewrite Hu at 1. f_equal.
  rewrite Hd. apply filter_notin_stable; [done|]. by rewrite <- Hd.
Qed.

Lemma ordered_ok_nil P0 : ordered_ok P0 [].
Proof. intros i s d H. by rewrite lookup_nil in H. Qed.

(** Appending a spec all of whose dependencies are in [P0] or among the
    modules already listed keeps the list well ordered. *)
Lemma ordered_ok_snoc P0 L s :
  ordered_ok P0 L →
  (∀ d, d ∈ dependencies s → d ∈ P0 ++ map module L) →
  ordered_ok P0 (L ++ [s]).
Proof.
  intros HL Hs i t d Hi Hd.
  destruct (decide (i < length L)%nat) as [Hlt|Hge].
  - rewrite lookup_app_l in Hi by done.
    destruct (HL i t d Hi Hd) as [|(j & t' & Hj & Ht & Hm)]; [by left|].
    right. exists j, t'. split_and!; [done| |done].
    rewrite lookup_app_l; [done|lia].
  - rewrite lookup_app_r in Hi by lia.
    destruct (i - length L)%nat as [|k] eqn:Ek; [|by destruct k].
    simpl in Hi. inversion Hi; subst t.
    apply Hs, elem_of_app in Hd as [Hd|Hd]; [by left|right].
    apply list_elem_of_fmap in Hd as (t' & -> & Hin).
    apply list_elem_of_lookup in Hin as (j & Hj).
    exists j, t'. split_and!; [|by rewrite lookup_app_l by (by eapply lookup_lt_Some)|done].
    apply lookup_lt_Some in Hj. lia.
Qed.

Lemma scan_modules_tracks R todo P L0 P0 seen ordered P' :
  Forall2 (tracks P) R todo →
  P = P0 ++ map module L0 →
  ordered_ok P0 L0 →
  scan_modules todo P = (seen, ordered, P') →
  ∃ Lnew Rrest,
    ordered = map resolved Lnew
    ∧ Forall2 (tracks P') Rrest
              (filter (λ m, (0 < length (dependencies m))%nat) seen)
    ∧ R ≡ₚ Lnew ++ Rrest
    ∧ P' = P0 ++ map module (L0 ++ Lnew)
    ∧ ordered_ok P0 (L0 ++ Lnew).
Proof.
  intros HF. revert P L0 R HF seen ordered P'.
  induction todo as [|u todo IH]; intros P L0 R HF seen ordered P' HP HL H.
  - apply Forall2_nil_inv_r in HF as ->. simpl in H. inversion H; subst.
    exists [], []. rewrite !app_nil_r.
    split_and!; done.
  - apply Forall2_cons_inv_r in HF as (r & R' & Hru & HF & ->).
    simpl in H. apply tracks_filter in Hru.
    set (u1 := set_dependencies u _) in *.
    case_decide as Hd.
    + destruct (scan_modules todo _) as [[seen0 ord0] P1] eqn:E.
      inversion H; subst seen ordered P'. clear H.
      destruct (tracks_resolved _ _ _ Hru Hd) as [Hu1 Hdeps].
      assert (module u1 = module r) as Hm by (by rewrite Hu1).
      destruct (IH (P ++ [module u1]) (L0 ++ [r]) R') with (4:=E)
        as (Lnew & Rrest & -> & HF' & HR & -> & Hok).
      * eapply Forall2_impl; [done|]. intros ??. apply tracks_mono.
        intros d ?. apply elem_of_app. by left.
      * rewrite HP, Hm, map_app. simpl. by rewrite <- app_assoc.
      * apply ordered_ok_snoc; [done|]. intros d Hin. rewrite <- HP. by apply Hdeps.
      * exists (r :: Lnew), Rrest. rewrite filter_cons_False by (simpl; lia).
        rewrite <- !app_assoc in *. simpl in *.
        split_and!; [by rewrite Hu1|done|by rewrite HR|done|done].
    + destruct (scan_modules todo _) as [[seen0 ord0] P1] eqn:E.
      inversion H; subst seen ordered P'. clear H.
      destruct (IH P L0 R' HF _ _ _ HP HL E) as (Lnew & Rrest & -> & HF' & HR & -> & Hok).
      exists Lnew, (r :: Rrest). rewrite filter_cons_True by (simpl; lia).
      split_and!; [done| |by rewrite HR, Permutation_middle|done|done].
      constructor; [|done]. eapply tracks_mono; [|done].
      intros d Hin. rewrite HP in Hin. rewrite map_app, app_assoc.
      apply elem_of_app. by left.
Qed.

Lemma findResolvedModules_Inv {W} P0 U (st : State W) new l' P' :
  Inv P0 U st →
  findResolvedModules (unprocessed st) (processed st) = (new, l', P') →
  Inv P0 U (mk_State l' P' (orderedSpecs st ++ new) (world st)).
Proof.
  intros (L & R & Hord & HF & HU & HP & Hok). unfold findResolvedModules.
  destruct (scan_modules _ _) as [[seen ord] P1] eqn:E. intros H.
  inversion H; subst new l' P'. clear H.
  destruct (scan_modules_tracks _ _ _ _ _ _ _ _ HF HP Hok E)
    as (Lnew & Rrest & -> & HF' & HR & -> & Hok').
  exists (L ++ Lnew), Rrest. simpl.
  split_and!; [by rewrite Hord, map_app|done| |done|done].
  by rewrite HU, HR, app_assoc.
Qed.

(** *** The inner loop *)

Section inner_loop.
Context {W : Type}.
Implicit Types st : State W.

Lemma resolve_loop_unfold fuel last st :
  resolve_loop fuel last st =
  if decide (last < Z.of_nat (length (processed st))) then
    match fuel with
    | O => None
    | S fuel' =>
        let '(new, unprocessed', processed') :=
          findResolvedModules (unprocessed st) (processed st) in
        resolve_loop fuel' (Z.of_nat (length (processed st)))
          (mk_State unprocessed' processed' (orderedSpecs st ++ new)
                    (world st))
    end
  else Some st.
Proof. by destruct fuel. Qed.

(** The fuel handed to the inner loop is enough: a pass that lengthens
    [processed] shortens [unprocessed]. *)
Lemma resolve_loop_total fuel last st :
  (last < Z.of_nat (length (processed st)) →
   (length (unprocessed st) < fuel)%nat) →
  is_Some (resolve_loop fuel last st).
Proof.
  revert last st. induction fuel as [|fuel IH]; intros last st Hf; simpl.
  - case_decide as Hc; [apply Hf in Hc; lia|done].
  - case_decide as Hc; [|done].
    destruct (findResolvedModules _ _) as [[new l'] P'] eqn:E.
    apply IH. simpl. intros Hlt.
    apply findResolvedModules_length in E as [E1 E2]. specialize (Hf Hc). lia.
Qed.

Lemma resolve_loop_Inv P0 U fuel last st st' :
  Inv P0 U st → resolve_loop fuel last st = Some st' →
  Inv P0 U st' ∧ world st' = world st.
Proof.
  revert last st. induction fuel as [|fuel IH]; intros last st HI; simpl.
  - case_decide as Hc; [done|]. by intros [= <-].
  - case_decide as Hc; [|by intros [= <-]].
    destruct (findResolvedModules _ _) as [[new l'] P'] eqn:E. intros H.
    eapply IH in H; [|by eapply findResolvedModules_Inv]. done.
Qed.

Lemma scan_modules_no_progress todo P seen P' :
  scan_modules todo P = (seen, [], P') →
  P' = P
  ∧ seen = map (λ m, set_dependencies m
                       (filter (λ d, d ∉ P) (dependencies m))) todo.
Proof.
  revert seen. induction todo as [|m todo IH]; intros seen H; simpl in H.
  - by inversion H.
  - case_decide as Hc.
    + destruct (scan_modules todo (P ++ _)) as [[??]?]. discriminate H.
    + destruct (scan_modules todo _) as [[seen0 ord0] P1] eqn:E.
      inversion H; subst. destruct (IH _ eq_refl) as [-> ->]. done.
Qed.

(** A pass that adds nothing to [processed] leaves only specs that are
    stuck on it. *)
Lemma findResolvedModules_stuck l P new l' P' (w : W)
    (os : list easyconfig) :
  findResolvedModules l P = (new, l', P') →
  ¬ (Z.of_nat (length P) < Z.of_nat (length P')) →
  stuck (mk_State l' P' os w).
Proof.
  unfold findResolvedModules.
  destruct (scan_modules l P) as [[seen ord] P1] eqn:E. intros H Hn.
  inversion H; subst new l' P'. clear H.
  destruct (scan_modules_shape _ _ _ _ _ E) as (HP & _ & _).
  destruct ord as [|o ord].
  - apply scan_modules_no_progress in E as [-> ->].
    intros u [Hlen Hin]%list_elem_of_filter. simpl in *.
    apply list_elem_of_fmap in Hin as (m & -> & _). simpl in *. split.
    + intros Heq. rewrite Heq in Hlen. simpl in Hlen. lia.
    + intros d [Hd _]%list_elem_of_filter. done.
  - subst P1. rewrite length_app in Hn. simpl in Hn. lia.
Qed.

Lemma resolve_loop_stuck fuel last st st' :
  resolve_loop fuel last st = Some st' →
  (¬ last < Z.of_nat (length (processed st)) → stuck st) →
  stuck st'.
Proof.
  revert last st. induction fuel as [|fuel IH]; intros last st; simpl.
  - case_decide as Hc; [done|]. intros [= <-] Hs. by apply Hs.
  - case_decide as Hc; [|intros [= <-] Hs; by apply Hs].
    destruct (findResolvedModules _ _) as [[new l'] P'] eqn:E. intros H _.
    eapply IH; [done|]. simpl. intros Hn.
    by eapply findResolvedModules_stuck.
Qed.

(** Once every remaining spec is stuck, a further pass changes nothing. *)
Lemma findResolvedModules_fixed l P :
  (∀ u, u ∈ l → dependencies u ≠ [] ∧ ∀ d, d ∈ dependencies u → d ∉ P) →
  findResolvedModules l P = ([], l, P).
Proof.
  intros Hs. unfold findResolvedModules.
  assert (scan_modules l P = (l, [], P)) as ->.
  { induction l as [|m l IH]; [done|]. simpl.
    destruct (Hs m) as [Hne Hd]; [by left|].
    assert (filter (λ d, d ∉ P) (dependencies m) = dependencies m) as Hf.
    { clear Hne. induction (dependencies m) as [|d ds IHd]; [done|].
      rewrite filter_cons_True by (apply Hd; by left).
      f_equal. apply IHd. intros ??. apply Hd. by right. }
    rewrite Hf, set_dependencies_id. rewrite decide_False.
    - rewrite IH; [done|]. intros ??. apply Hs. by right.
    - destruct (dependencies m); [done|simpl; lia]. }
  f_equal. f_equal. induction l as [|m l IH]; [done|].
  destruct (Hs m) as [Hne _]; [by left|].
  rewrite filter_cons_True.
  - f_equal. apply IH. intros ??. apply Hs. by right.
  - simpl. destruct (dependencies m); [done|simpl; lia].
Qed.

End inner_loop.

(** *** The robot *)

Section robot.
Context {W : Type}.
Variable available : list ModuleId.
Variable create_paths : string → string → string → list string.
Variable isfile : W → string → bool.
Variable abspath : string → string.
Variable processEasyconfig :
  string → bool → W → EasyBuildError + (W * list easyconfig).
Variable robot : option string.
Variable force : bool.
Implicit Types st : State W.

Local Abbreviation find := (robotFindEasyconfig create_paths isfile abspath).
Local Abbreviation rfor :=
  (robot_for create_paths isfile abspath processEasyconfig robot force).
Local Abbreviation rpass :=
  (robot_pass create_paths isfile abspath processEasyconfig robot force).
Local Abbreviation rloop :=
  (robot_loop create_paths isfile abspath processEasyconfig robot force).

Local Abbreviation robot_choice :=
  (robot_choice create_paths isfile abspath robot).
Local Abbreviation robot_extend := (robot_extend processEasyconfig force).

Lemma robot_for_cons bi m todo st :
  rfor bi (m :: todo) st =
  match robot_choice bi (world st) m with
  | Some (c, p) => robot_extend st c p
  | None => rfor bi todo st
  end.
Proof.
  simpl. unfold robot_choice, robot_extend.
  destruct (candidates_of bi m) as [|c cs]; [by destruct robot|].
  destruct robot as [r|]; [|done].
  destruct (find (world st) r c) as [p|]; [|done].
  destruct (truthy (Some p)); done.
Qed.

Lemma robot_for_skip bi l1 l2 st :
  Forall (λ m, robot_choice bi (world st) m = None) l1 →
  rfor bi (l1 ++ l2) st = rfor bi l2 st.
Proof.
  induction 1 as [|m l1 Hm _ IH]; [done|].
  rewrite <- app_comm_cons, robot_for_cons, Hm. done.
Qed.

Lemma robot_for_None bi l st :
  Forall (λ m, robot_choice bi (world st) m = None) l →
  rfor bi l st = inr None.
Proof.
  intros H. rewrite <- (app_nil_r l). by rewrite robot_for_skip.
Qed.

Lemma robot_for_Some bi l st st2 :
  rfor bi l st = inr (Some st2) →
  ∃ added, unprocessed st2 = unprocessed st ++ added
           ∧ processed st2 = processed st
           ∧ orderedSpecs st2 = orderedSpecs st
           ∧ is_Some robot.
Proof.
  induction l as [|m l IH]; [done|]. rewrite robot_for_cons.
  destruct (robot_choice bi (world st) m) as [[c p]|] eqn:E; [|done].
  unfold robot_extend.
  destruct (processEasyconfig _ _ _) as [|[w' specs]]; [done|].
  case_decide; [|done]. intros [= <-]. exists specs. simpl.
  split_and!; try done. unfold robot_choice in E.
  destruct (candidates_of bi m); [done|]. by destruct robot.
Qed.

Lemma robot_pass_Inv P0 U st st2 :
  Inv P0 U st → rpass st = inr (Some st2) →
  ∃ added, Inv P0 (U ++ added) st2.
Proof.
  intros (L & R & Hord & HF & HU & HP & Hok) H.
  apply robot_for_Some in H as (added & Hu & Hp & Ho & _).
  exists added, L, (R ++ added). rewrite Hu, Hp, Ho.
  split_and!; try done.
  - apply Forall2_app; [done|]. apply Forall2_same_length_lookup_2; [done|].
    intros i x y Hx Hy. rewrite Hx in Hy. inversion Hy; subst.
    apply tracks_refl.
  - by rewrite HU, app_assoc.
Qed.

(** *** The outer loop *)

Lemma robot_loop_S fuel cnt st :
  rloop (S fuel) cnt st =
  if decide (maxloopcnt < cnt + 1) then
    Some (cnt + 1, inl (MaxLoopCnt maxloopcnt))
  else
    match resolve_loop (S (length (unprocessed st))) (-1) st with
    | None => None
    | Some st1 =>
        if truthy robot && bool_decide (0 < length (unprocessed st1))%nat
        then match rpass st1 with
             | inl err => Some (cnt + 1, inl err)
             | inr (Some st2) => rloop fuel (cnt + 1) st2
             | inr None => Some (cnt + 1, inr st1)
             end
        else Some (cnt + 1, inr st1)
    end.
Proof. reflexivity. Qed.

Lemma robot_loop_total fuel cnt st :
  (0 < fuel)%nat → maxloopcnt < cnt + Z.of_nat fuel →
  is_Some (rloop fuel cnt st).
Proof.
  revert cnt st. induction fuel as [|fuel IH]; intros cnt st Hpos Hcap; [lia|].
  rewrite robot_loop_S. case_decide as Hc; [done|].
  destruct (resolve_loop_total (S (length (unprocessed st))) (-1) st)
    as [st1 ->]; [lia|].
  destruct (truthy robot && _); [|done].
  destruct (rpass st1) as [|[st2|]]; [done| |done].
  apply IH; lia.
Qed.

Lemma robot_loop_fuel fuel fuel' cnt st x :
  rloop fuel cnt st = Some x → (fuel ≤ fuel')%nat →
  rloop fuel' cnt st = Some x.
Proof.
  revert fuel' cnt st. induction fuel as [|fuel IH]; intros fuel' cnt st; [done|].
  destruct fuel' as [|fuel']; [lia|]. rewrite !robot_loop_S. intros H Hle.
  case_decide; [done|].
  destruct (resolve_loop _ _ _) as [st1|]; [|done].
  destruct (truthy robot && _); [|done].
  destruct (rpass st1) as [|[st2|]]; [done| |done].
  apply IH; [done|lia].
Qed.

Lemma robot_loop_count fuel cnt st cnt' r :
  rloop fuel cnt st = Some (cnt', r) →
  cnt < cnt'
  ∧ (cnt' ≤ Z.max (cnt + 1) (maxloopcnt + 1))
  ∧ (maxloopcnt < cnt' → r = inl (MaxLoopCnt maxloopcnt)).
Proof.
  assert (∀ c (x : EasyBuildError + State W),
            ¬ maxloopcnt < c + 1 →
            c < c + 1 ∧ c + 1 ≤ Z.max (c + 1) (maxloopcnt + 1)
            ∧ (maxloopcnt < c + 1 → x = inl (MaxLoopCnt maxloopcnt)))
    as Hstop by (intros; split_and!; [lia|lia|intros; lia]).
  revert cnt st. induction fuel as [|fuel IH]; intros cnt st; [done|].
  rewrite robot_loop_S. case_decide as Hc.
  { intros [= <- <-]. split_and!; [lia|lia|done]. }
  destruct (resolve_loop _ _ _) as [st1|]; [|done].
  destruct (truthy robot && _); [|intros [= <- <-]; by apply Hstop].
  destruct (rpass st1) as [|[st2|]];
    [intros [= <- <-]; by apply Hstop| |intros [= <- <-]; by apply Hstop].
  intros H. apply IH in H as (H1 & H2 & H3). split_and!; [lia|lia|done].
Qed.

Lemma robot_loop_Inv P0 U fuel cnt st cnt' st' :
  Inv P0 U st → rloop fuel cnt st = Some (cnt', inr st') →
  stuck st'
  ∧ ∃ added, Inv P0 (U ++ added) st'
             ∧ (truthy robot = false → added = []).
Proof.
  revert cnt st U. induction fuel as [|fuel IH]; intros cnt st U HI; [done|].
  rewrite robot_loop_S. case_decide as Hc; [done|].
  destruct (resolve_loop _ _ _) as [st1|] eqn:E1; [|done].
  pose proof (resolve_loop_stuck _ _ _ _ E1) as Hst.
  destruct (resolve_loop_Inv _ _ _ _ _ _ HI E1) as [HI1 _].
  assert (stuck st1) as Hstuck by (apply Hst; lia).
  destruct (truthy robot) eqn:Er; simpl.
  - case_bool_decide as Hn.
    + destruct (rpass st1) as [|[st2|]] eqn:E2; [done| |].
      * intros H. destruct (robot_pass_Inv _ _ _ _ HI1 E2) as (added & HI2).
        destruct (IH _ _ _ HI2 H) as (Hs & added' & HI' & _).
        split; [done|]. exists (added ++ added').
        rewrite app_assoc. done.
      * intros [= <- <-]. split; [done|]. exists []. by rewrite app_nil_r.
    + intros [= <- <-]. split; [done|]. exists []. by rewrite app_nil_r.
  - intros [= <- <-]. split; [done|]. exists []. by rewrite app_nil_r.
Qed.

End robot.

(** *** A robot that never converges *)

Section diverge.
Context {W : Type}.
Variable create_paths : string → string → string → list string.
Variable isfile : W → string → bool.
Variable abspath : string → string.
Variable processEasyconfig :
  string → bool → W → EasyBuildError + (W * list easyconfig).
Variable robot : option string.
Variable force : bool.
Local Abbreviation rpass :=
  (robot_pass create_paths isfile abspath processEasyconfig robot force).
Local Abbreviation rloop :=
  (robot_loop create_paths isfile abspath processEasyconfig robot force).

(** A robot that extends [unprocessed] in every pass drives the outer loop
    into its cap. *)
Lemma robot_loop_hits_cap (I : State W → Prop) :
  truthy robot = true →
  (∀ st, I st →
     ∃ st1 st2,
       resolve_loop (S (length (unprocessed st))) (-1) st = Some st1
       ∧ unprocessed st1 ≠ []
       ∧ rpass st1 = inr (Some st2) ∧ I st2) →
  ∀ fuel cnt st,
    I st → (0 < fuel)%nat → maxloopcnt < cnt + Z.of_nat fuel →
    ∃ cnt', rloop fuel cnt st = Some (cnt', inl (MaxLoopCnt maxloopcnt)).
Proof.
  intros Hr Hstep fuel. induction fuel as [|fuel IH]; intros cnt st HI Hpos Hcap; [lia|].
  rewrite robot_loop_S. case_decide as Hc; [by eexists|].
  destruct (Hstep st HI) as (st1 & st2 & -> & Hne & -> & HI2).
  rewrite Hr. simpl. rewrite bool_decide_true
    by (destruct (unprocessed st1); [done|simpl; lia]).
  apply IH; [done|lia|lia].
Qed.
End diverge.

Section endless.
Import Samples.

Lemma xs_length n : String.length (xs n) = n.
Proof. induction n; simpl; congruence. Qed.

Lemma xs_inj n m : xs n = xs m → n = m.
Proof. intros H. apply (f_equal String.length) in H. by rewrite !xs_length in H. Qed.

Lemma endless_chain_S k :
  endless_chain (S k) = endless_chain k ++ [endless_spec (xs (S (S k)))].
Proof. unfold endless_chain. rewrite (seq_S (S k)), fmap_app. done. Qed.

Lemma endless_chain_modules k d :
  d ∈ map module (endless_chain k) ↔ ∃ i, (i ≤ k)%nat ∧ d = ("dep", xs (S i)).
Proof.
  unfold endless_chain. rewrite list_elem_of_fmap. split.
  - intros (m & -> & (i & -> & Hi)%list_elem_of_fmap).
    apply elem_of_seq in Hi. exists i. split; [lia|done].
  - intros (i & Hi & ->). exists (endless_spec (xs (S i))). split; [done|].
    apply list_elem_of_fmap. exists i. split; [done|]. apply elem_of_seq. lia.
Qed.

Lemma endless_step (st : State unit) k :
  st = mk_State (endless_chain k) [] [] tt →
  resolve_loop (S (length (unprocessed st))) (-1) st = Some st
  ∧ unprocessed st ≠ []
  ∧ robot_pass endless_create_paths endless_isfile id endless_process
      (Some "/robot") false st
    = inr (Some (mk_State (endless_chain (S k)) [] [] tt)).
Proof.
  intros ->. split_and!.
  - rewrite resolve_loop_unfold. cbn [unprocessed processed orderedSpecs world].
    rewrite decide_True by (simpl; lia).
    rewrite findResolvedModules_fixed.
    + rewrite resolve_loop_unfold. cbn [processed].
      rewrite decide_False by lia. done.
    + intros u (i & -> & _)%list_elem_of_fmap. split; [done|].
      intros d _. apply not_elem_of_nil.
  - done.
  - unfold robot_pass. cbn [unprocessed].
    set (bi := map module (endless_chain k)).
    rewrite endless_chain_S.
    remember (endless_chain k) as chain eqn:Hchain.
    rewrite Hchain at 1. unfold endless_chain.
    rewrite (seq_S k), fmap_app.
    change ((λ i, endless_spec (xs (S i))) <$> [(0 + k)%nat])
      with [endless_spec (xs (S k))].
    rewrite robot_for_skip.
    + rewrite robot_for_cons. unfold robot_choice, candidates_of.
      cbn [dependencies endless_spec].
      rewrite filter_cons_True.
      * unfold robotFindEasyconfig, endless_create_paths, endless_isfile.
        rewrite filter_cons_True by done. unfold robot_extend.
        cbn [truthy id endless_process negb world].
        rewrite decide_True by (by left). reflexivity.
      * subst bi chain. rewrite endless_chain_modules. intros (i & Hi & Heq).
        injection Heq as Heq. apply (xs_inj (S k) i) in Heq. lia.
    + apply Forall_forall. intros m (i & -> & Hi%elem_of_seq)%list_elem_of_fmap.
      unfold robot_choice, candidates_of. cbn [dependencies endless_spec].
      rewrite filter_cons_False; [done|]. intros Hn. apply Hn.
      subst bi chain. apply endless_chain_modules. exists (S i). split; [lia|done].
Qed.

Lemma endless_robot_hits_cap :
  resolveDependencies [] endless_create_paths endless_isfile id
    endless_process (Some "/robot") false [endless_spec "x"] tt
  = Some (inl (MaxLoopCnt 10000)).
Proof.
  unfold resolveDependencies.
  destruct (robot_loop_hits_cap endless_create_paths endless_isfile id
              endless_process (Some "/robot") false
              (λ st, ∃ k, st = mk_State (endless_chain k) [] [] tt)
              eq_refl) with (fuel := Z.to_nat (maxloopcnt + 1)) (cnt := 0)
              (st := initial_state [] false [endless_spec "x"] tt)
    as [cnt' ->].
  - intros st [k Hk]. destruct (endless_step st k Hk) as (H1 & H2 & H3).
    exists st, (mk_State (endless_chain (S k)) [] [] tt).
    split_and!; [done|done|done|by exists (S k)].
  - by exists 0%nat.
  - unfold maxloopcnt. lia.
  - unfold maxloopcnt. lia.
  - done.
Qed.

End endless.

(** *** Specs that can never be placed *)

Lemma NoDup_fmap_eq {A B} (f : A → B) (l : list A) x y :
  NoDup (f <$> l) → x ∈ l → y ∈ l → f x = f y → x = y.
Proof.
  induction l as [|a l IH]; [by intros _ ?%elem_of_nil|].
  rewrite fmap_cons, NoDup_cons.
  intros [Hn Hnd] [->|Hx]%elem_of_cons [->|Hy]%elem_of_cons Hf; [done| | |by apply IH].
  - exfalso. apply Hn. rewrite Hf. by apply list_elem_of_fmap_2.
  - exfalso. apply Hn. rewrite <- Hf. by apply list_elem_of_fmap_2.
Qed.

(** In a well-ordered list no spec has a dependency that is neither in
    [P0] nor the module of a listed spec. *)
Lemma ordered_ok_no_missing P0 L s d :
  ordered_ok P0 L → s ∈ L → d ∈ dependencies s →
  d ∉ P0 → d ∉ map module L → False.
Proof.
  intros Hok (i & Hi)%list_elem_of_lookup Hd HP HL.
  destruct (Hok i s d Hi Hd) as [?|(j & t & _ & Hj & <-)]; [done|].
  apply HL, list_elem_of_fmap. exists t. split; [done|].
  apply list_elem_of_lookup. by exists j.
Qed.

(** Nor does it hold a spec of a set [C] in which every spec depends on the
    module of a spec of [C], when module ids are distinct and none is in
    [P0]. *)
Lemma ordered_ok_no_cycle P0 specs L R (C : list easyconfig) :
  specs ≡ₚ L ++ R → ordered_ok P0 L → NoDup (map module specs) →
  (∀ t, t ∈ specs → module t ∉ P0) →
  (∀ s, s ∈ C → s ∈ specs ∧ ∃ t, t ∈ C ∧ module t ∈ dependencies s) →
  ∀ s, s ∈ C → s ∉ L.
Proof.
  intros HU Hok Hnd HP HC.
  assert (∀ i s, L !! i = Some s → s ∈ C → False) as Hno.
  { intros i. induction i as [i IH] using lt_wf_ind. intros s Hi Hs.
    destruct (HC s Hs) as (_ & t & Ht & Hd).
    destruct (HC t Ht) as (Htspecs & _).
    destruct (Hok i s _ Hi Hd) as [?|(j & t' & Hlt & Hj & Hm)];
      [by eapply HP|].
    assert (t' = t) as ->.
    { apply (NoDup_fmap_eq module specs); [done| |done|done].
      rewrite HU. apply elem_of_app. left.
      apply list_elem_of_lookup. by exists j. }
    by apply (IH j Hlt t). }
  intros s Hs (i & Hi)%list_elem_of_lookup. by eapply Hno.
Qed.

(** *** The reported set *)

Lemma missing_inner_dom (acc : gmap ModuleId bool) (deps : list ModuleId) d :
  d ∈ dom (foldl (λ acc' dep, <[dep := true]> acc') acc deps)
  ↔ d ∈ dom acc ∨ d ∈ deps.
Proof.
  revert acc. induction deps as [|x deps IH]; intros acc; simpl.
  - split; [by left|]. intros [?|?%elem_of_nil]; done.
  - rewrite IH, dom_insert, elem_of_union, elem_of_singleton, elem_of_cons.
    tauto.
Qed.

Lemma missingDependencies_dom (l : list easyconfig) d :
  d ∈ dom (missingDependencies l) ↔ ∃ u, u ∈ l ∧ d ∈ dependencies u.
Proof.
  unfold missingDependencies.
  assert (∀ acc : gmap ModuleId bool,
            d ∈ dom (foldl (λ acc module0,
                       foldl (λ acc' dep, <[dep := true]> acc') acc
                             (dependencies module0)) acc l)
            ↔ d ∈ dom acc ∨ ∃ u, u ∈ l ∧ d ∈ dependencies u) as H.
  { induction l as [|m l IH]; intros acc; simpl.
    - split; [by left|]. intros [?|(u & ?%elem_of_nil & _)]; done.
    - rewrite IH, missing_inner_dom. split.
      + intros [[?|?]|(u & ? & ?)]; [by left| |].
        * right. exists m. split; [by left|done].
        * right. exists u. split; [by right|done].
      + intros [?|(u & [->|?]%elem_of_cons & ?)]; [by left;left|by left;right|].
        right. by exists u. }
  rewrite H, dom_empty. split; [|by right].
  intros [?%elem_of_empty|?]; done.
Qed.

Lemma tracks_stuck_map P R us :
  Forall2 (tracks P) R us →
  (∀ u, u ∈ us → ∀ d, d ∈ dependencies u → d ∉ P) →
  us = map (λ r, set_dependencies r
                   (filter (λ d, d ∉ P) (dependencies r))) R.
Proof.
  induction 1 as [|r u R us Hru HF IH]; [done|]. intros Hs. simpl. f_equal.
  - apply tracks_unsatisfied; [done|]. apply Hs. by left.
  - apply IH. intros ??. apply Hs. by right.
Qed.

Section claims.
Context {W : Type}.
Variable available : list ModuleId.
Variable create_paths : string → string → string → list string.
Variable isfile : W → string → bool.
Variable abspath : string → string.
Variable processEasyconfig :
  string → bool → W → EasyBuildError + (W * list easyconfig).
Variable robot : option string.
Variable force : bool.
Implicit Types st : State W.

Local Abbreviation rloop :=
  (robot_loop create_paths isfile abspath processEasyconfig robot force).
Local Abbreviation resolve :=
  (resolveDependencies available create_paths isfile abspath
     processEasyconfig robot force).
Local Abbreviation st0 := (initial_state available force).

Lemma initial_state_Inv specs (w : W) :
  Inv (processed (st0 specs w)) specs (st0 specs w).
Proof.
  exists [], specs. simpl. rewrite app_nil_r.
  split_and!; [done| |done|done|apply ordered_ok_nil].
  apply Forall2_same_length_lookup_2; [done|].
  intros i x y Hx Hy. rewrite Hx in Hy. inversion Hy. apply tracks_refl.
Qed.

Lemma fuel_pos : (0 < Z.to_nat (maxloopcnt + 1))%nat.
Proof. unfold maxloopcnt. lia. Qed.

Lemma resolveDependencies_total specs (w : W) : is_Some (resolve specs w).
Proof.
  unfold resolveDependencies.
  destruct (robot_loop_total create_paths isfile abspath processEasyconfig
              robot force (Z.to_nat (maxloopcnt + 1)) 0 (st0 specs w))
    as [[cnt [err|st]] ->]; [apply fuel_pos|unfold maxloopcnt; lia|done|done].
Qed.

(** What is known of the state in which the outer loop ends. *)
Lemma loop_end_state specs (w : W) cnt st :
  rloop (Z.to_nat (maxloopcnt + 1)) 0 (st0 specs w) = Some (cnt, inr st) →
  resolve specs w = Some (conclude st)
  ∧ ∃ L R added,
      specs ++ added ≡ₚ L ++ R
      ∧ (truthy robot = false → added = [])
      ∧ processed st = processed (st0 specs w) ++ map module L
      ∧ ordered_ok (processed (st0 specs w)) L
      ∧ unprocessed st =
          map (λ r, set_dependencies r
                      (filter (λ d, d ∉ processed st) (dependencies r))) R
      ∧ (∀ r, r ∈ R →
              filter (λ d, d ∉ processed st) (dependencies r) ≠ []).
Proof.
  intros E. split; [unfold resolveDependencies; by rewrite E|].
  destruct (robot_loop_Inv _ _ _ _ _ _ _ _ _ _ _ _ _
              (initial_state_Inv specs w) E)
    as (Hstuck & added & (L & R & Hord & HF & HU & HP & Hok) & Hrobot).
  exists L, R, added.
  assert (unprocessed st =
            map (λ r, set_dependencies r
                   (filter (λ d, d ∉ processed st) (dependencies r))) R)
    as Hmap.
  { apply tracks_stuck_map; [done|]. intros u Hu. by apply Hstuck. }
  split_and!; [done|done|done|done|done|].
  intros r Hr Heq.
  assert (set_dependencies r
            (filter (λ d, d ∉ processed st) (dependencies r))
          ∈ unprocessed st) as Hin.
  { rewrite Hmap. apply list_elem_of_fmap. by exists r. }
  apply Hstuck in Hin as [Hn _]. by apply Hn.
Qed.

(** The set that is reported when a spec [r] of [R] is left. *)
Lemma conclude_missing st R r :
  unprocessed st =
    map (λ r, set_dependencies r
                (filter (λ d, d ∉ processed st) (dependencies r))) R →
  r ∈ R →
  ∃ missing,
    conclude st = inl (DependenciesNotMet missing)
    ∧ ∀ d, d ∈ missing
           ↔ ∃ r, r ∈ R ∧ d ∈ dependencies r ∧ d ∉ processed st.
Proof.
  intros Hmap Hr. exists (dom (missingDependencies (unprocessed st))). split.
  - unfold conclude. rewrite decide_True; [done|]. rewrite Hmap.
    destruct R; [by apply elem_of_nil in Hr|simpl; lia].
  - intros d. rewrite missingDependencies_dom. split.
    + intros (u & Hu & Hd). rewrite Hmap in Hu.
      apply list_elem_of_fmap in Hu as (r' & -> & Hr'). simpl in Hd.
      apply list_elem_of_filter in Hd as [? ?]. by exists r'.
    + intros (r' & Hr' & Hd & Hn). eexists. split.
      * rewrite Hmap. apply list_elem_of_fmap. by exists r'.
      * simpl. by apply list_elem_of_filter.
Qed.

(** Without a robot the outer loop ends after its first pass. *)
Lemma no_robot_loop_ends specs (w : W) :
  truthy robot = false →
  ∃ st, rloop (Z.to_nat (maxloopcnt + 1)) 0 (st0 specs w)
        = Some (1, inr st).
Proof.
  intros Hr.
  assert (Z.to_nat (maxloopcnt + 1) = S (Z.to_nat maxloopcnt)) as ->
    by (unfold maxloopcnt; lia).
  rewrite robot_loop_S. rewrite decide_False by (unfold maxloopcnt; lia).
  destruct (resolve_loop_total (S (length (unprocessed (st0 specs w)))) (-1)
              (st0 specs w)) as [st1 ->]; [lia|].
  rewrite Hr. simpl. by exists st1.
Qed.

Lemma initial_processed specs (w : W) d :
  d ∈ processed (st0 specs w)
  ↔ d ∈ (if force then [] else available) ∧ d ∉ map module specs.
Proof. simpl. by rewrite list_elem_of_filter, (comm and). Qed.

(** Claim C3.  [resolveDependencies] always returns (the fuel is never
    what stops it).  When the outer loop ends with specs left in
    [unprocessed], it raises "Dependencies not met", and the reported set
    is exactly the union, over the specs left, of the dependencies they
    were given with that are not in [processed]; each spec left has at
    least one.  Without a robot this is what happens as soon as a spec has
    a dependency that is neither available nor the module of a given spec
    (that dependency is reported), and as soon as, module ids being
    distinct, some given specs each depend on the module of one of them,
    as the specs of a cycle do (those modules are reported). *)
Theorem resolveDependencies_unresolved specs (w : W) :
  is_Some (resolve specs w)
  ∧ (∀ cnt st,
       rloop (Z.to_nat (maxloopcnt + 1)) 0 (st0 specs w)
         = Some (cnt, inr st) →
       unprocessed st ≠ [] →
       ∃ missing R added,
         resolve specs w = Some (inl (DependenciesNotMet missing))
         ∧ (∀ r, r ∈ R → r ∈ specs ++ added)
         ∧ unprocessed st =
             map (λ r, set_dependencies r
                         (filter (λ d, d ∉ processed st) (dependencies r))) R
         ∧ (∀ r, r ∈ R →
                 filter (λ d, d ∉ processed st) (dependencies r) ≠ [])
         ∧ (∀ d, d ∈ missing
                 ↔ ∃ r, r ∈ R ∧ d ∈ dependencies r ∧ d ∉ processed st))
  ∧ (truthy robot = false →
     (∀ s d,
        s ∈ specs → d ∈ dependencies s →
        d ∉ (if force then [] else available) → d ∉ map module specs →
        ∃ missing,
          resolve specs w = Some (inl (DependenciesNotMet missing))
          ∧ d ∈ missing)
     ∧ (∀ C : list easyconfig,
          NoDup (map module specs) → C ≠ [] →
          (∀ s, s ∈ C →
                s ∈ specs ∧ ∃ t, t ∈ C ∧ module t ∈ dependencies s) →
          ∃ missing,
            resolve specs w = Some (inl (DependenciesNotMet missing))
            ∧ ∀ s t, s ∈ C → t ∈ C → module t ∈ dependencies s →
                     module t ∈ missing)).
Proof.
  split; [apply resolveDependencies_total|]. split.
  - intros cnt st E Hne.
    destruct (loop_end_state specs w cnt st E)
      as (Hres & L & R & added & HU & _ & _ & _ & Hmap & Hleft).
    destruct R as [|r R]; [by rewrite Hmap in Hne|].
    destruct (conclude_missing st (r :: R) r Hmap) as (missing & Hc & Hm);
      [by left|].
    exists missing, (r :: R), added. rewrite Hres, Hc.
    split_and!; [done| |done|done|done].
    intros r' Hr'. rewrite HU. apply elem_of_app. by right.
  - intros Hrobot. destruct (no_robot_loop_ends specs w Hrobot) as [st E].
    destruct (loop_end_state specs w 1 st E)
      as (Hres & L & R & added & HU & Hadded & HP & Hok & Hmap & _).
    rewrite (Hadded Hrobot), app_nil_r in HU.
    assert (∀ t, t ∈ L → t ∈ specs) as HL.
    { intros t Ht. rewrite HU. apply elem_of_app. by left. }
    assert (∀ d, d ∉ processed (st0 specs w) → d ∉ map module L →
                 d ∉ processed st) as Hnp.
    { intros d H1 H2. rewrite HP. by intros [?|?]%elem_of_app. }
    split.
    + intros s d Hs Hd Ha Hm.
      assert (d ∉ processed (st0 specs w)) as HdP.
      { rewrite initial_processed. tauto. }
      assert (d ∉ map module L) as HdL.
      { intros (t & -> & Ht)%list_elem_of_fmap. apply Hm.
        apply list_elem_of_fmap. exists t. split; [done|by apply HL]. }
      assert (s ∈ R) as HsR.
      { rewrite HU in Hs. apply elem_of_app in Hs as [Hs|Hs]; [|done].
        exfalso. by eapply ordered_ok_no_missing. }
      destruct (conclude_missing st R s Hmap HsR) as (missing & Hc & Hmiss).
      exists missing. rewrite Hres, Hc. split; [done|].
      apply Hmiss. exists s. split_and!; [done|done|]. by apply Hnp.
    + intros C Hnd HCne HC.
      assert (∀ t, t ∈ specs → module t ∉ processed (st0 specs w)) as HP0.
      { intros t Ht. rewrite initial_processed. intros [_ Hn]. apply Hn.
        by apply list_elem_of_fmap_2. }
      pose proof (ordered_ok_no_cycle _ _ _ _ C HU Hok Hnd HP0 HC) as HnL.
      assert (∀ s, s ∈ C → s ∈ R) as HCR.
      { intros s Hs. destruct (HC s Hs) as [Hspecs _]. rewrite HU in Hspecs.
        apply elem_of_app in Hspecs as [?|?]; [|done]. by destruct (HnL s). }
      destruct C as [|s0 C]; [done|].
      destruct (conclude_missing st R s0 Hmap) as (missing & Hc & Hmiss);
        [apply HCR; by left|].
      exists missing. rewrite Hres, Hc. split; [done|].
      intros s t Hs Ht Hd. apply Hmiss. exists s.
      split_and!; [by apply HCR|done|]. destruct (HC t Ht) as [Htspecs _].
      apply Hnp; [by apply HP0|].
      intros (t' & Hm & Ht')%list_elem_of_fmap.
      assert (t' = t) as ->
        by (apply (NoDup_fmap_eq module specs); auto).
      by destruct (HnL t).
Qed.

(** Claim C5.  The cap is 10000.  Whatever the inputs and the robot's
    answers, the outer loop returns, with the same result for any larger
    amount of fuel; its counter ends between 1 and 10001, and when it has
    passed the cap the result is the "Maximum loop cnt" error.  A robot
    that finds a new spec in every pass ends in that error. *)
Theorem resolveDependencies_loop_cap specs (w : W) (k : nat) :
  maxloopcnt = 10000
  ∧ is_Some (resolve specs w)
  ∧ (∃ cnt r,
       rloop (Z.to_nat (maxloopcnt + 1)) 0 (st0 specs w) = Some (cnt, r)
       ∧ rloop (Z.to_nat (maxloopcnt + 1) + k) 0 (st0 specs w)
           = Some (cnt, r)
       ∧ 1 ≤ cnt ≤ maxloopcnt + 1
       ∧ (maxloopcnt < cnt → r = inl (MaxLoopCnt maxloopcnt)))
  ∧ resolveDependencies [] Samples.endless_create_paths
      Samples.endless_isfile id Samples.endless_process (Some "/robot")
      false [Samples.endless_spec "x"] tt
    = Some (inl (MaxLoopCnt 10000)).
Proof.
  split; [done|]. split; [apply resolveDependencies_total|].
  split; [|apply endless_robot_hits_cap].
  destruct (robot_loop_total create_paths isfile abspath processEasyconfig
              robot force (Z.to_nat (maxloopcnt + 1)) 0 (st0 specs w))
    as [[cnt r] E]; [apply fuel_pos|unfold maxloopcnt; lia|].
  exists cnt, r. split; [done|]. split.
  - eapply robot_loop_fuel; [done|lia].
  - apply robot_loop_count in E as (H1 & H2 & H3). unfold maxloopcnt in *.
    split; [lia|done].
Qed.

(** A successful call leaves the caller's list empty. *)
Lemma resolveDependencies_leaves_nothing specs (w : W) rest w' ordered :
  resolve specs w = Some (inr (rest, w', ordered)) → rest = [].
Proof.
  unfold resolveDependencies.
  destruct (rloop _ _ _) as [[cnt [err|st]]|]; [done| |done].
  unfold conclude. case_decide as Hlen; [done|]. intros [= <- <- <-].
  destruct (unprocessed st); [done|simpl in Hlen; lia].
Qed.

End claims.

(** *** The scan only rewrites ['dependencies'] *)

Lemma scan_modules_seen todo P seen ordered P' :
  scan_modules todo P = (seen, ordered, P') →
  Forall2 (λ m m', m' = set_dependencies m (dependencies m')) todo seen.
Proof.
  revert P seen ordered P'.
  induction todo as [|m todo IH]; intros P seen ordered P' H; simpl in H.
  - inversion H. constructor.
  - case_decide as Hd.
    + destruct (scan_modules todo (P ++ _)) as [[seen0 ord0] P0] eqn:E.
      inversion H; subst. constructor; [done|]. by eapply IH.
    + destruct (scan_modules todo P) as [[seen0 ord0] P0] eqn:E.
      inversion H; subst. constructor; [done|]. by eapply IH.
Qed.

(** *** Two runs *)

Section two_runs.
Context {W : Type}.
Variable available : list ModuleId.
Variables create_paths1 create_paths2 : string → string → string → list string.
Variables isfile1 isfile2 : W → string → bool.
Variables abspath1 abspath2 : string → string.
Variables processEasyconfig1 processEasyconfig2 :
  string → bool → W → EasyBuildError + (W * list easyconfig).
Variable robot : option string.
Variable force : bool.

Hypothesis same_paths : ∀ r n v, create_paths1 r n v = create_paths2 r n v.
Hypothesis same_isfile : ∀ w p, isfile1 w p = isfile2 w p.
Hypothesis same_abspath : ∀ p, abspath1 p = abspath2 p.
Hypothesis same_process :
  ∀ p v w, processEasyconfig1 p v w = processEasyconfig2 p v w.

Lemma robotFindEasyconfig_ext w r m :
  robotFindEasyconfig create_paths1 isfile1 abspath1 w r m
  = robotFindEasyconfig create_paths2 isfile2 abspath2 w r m.
Proof.
  unfold robotFindEasyconfig. destruct m as [n v]. rewrite same_paths.
  induction (create_paths2 r n v) as [|p ps IH]; [done|].
  destruct (isfile1 w p) eqn:E1.
  - rewrite (filter_cons_True (λ p, isfile1 w p = true)) by done.
    rewrite (filter_cons_True (λ p, isfile2 w p = true))
      by (by rewrite <- same_isfile).
    by rewrite same_abspath.
  - rewrite (filter_cons_False (λ p, isfile1 w p = true)) by congruence.
    rewrite (filter_cons_False (λ p, isfile2 w p = true))
      by (rewrite <- same_isfile; congruence).
    done.
Qed.

Lemma robot_for_ext bi todo (st : State W) :
  robot_for create_paths1 isfile1 abspath1 processEasyconfig1 robot force
    bi todo st
  = robot_for create_paths2 isfile2 abspath2 processEasyconfig2 robot force
      bi todo st.
Proof.
  induction todo as [|m todo IH]; [done|]. simpl.
  destruct (candidates_of bi m) as [|c cs]; [by destruct robot|].
  destruct robot as [r|]; [|done].
  rewrite robotFindEasyconfig_ext.
  destruct (robotFindEasyconfig create_paths2 _ _ _ _ _) as [p|]; [|done].
  rewrite same_process. by rewrite IH.
Qed.

Lemma robot_loop_ext fuel cnt (st : State W) :
  robot_loop create_paths1 isfile1 abspath1 processEasyconfig1 robot force
    fuel cnt st
  = robot_loop create_paths2 isfile2 abspath2 processEasyconfig2 robot force
      fuel cnt st.
Proof.
  revert cnt st. induction fuel as [|fuel IH]; intros cnt st; [done|].
  rewrite !robot_loop_S. case_decide; [done|].
  destruct (resolve_loop _ _ _) as [st1|]; [|done].
  destruct (truthy robot && _); [|done].
  unfold robot_pass. rewrite robot_for_ext.
  destruct (robot_for create_paths2 _ _ _ _ _ _ _ _) as [|[st2|]]; done.
Qed.

(** Claim C6.  Two runs of [resolveDependencies] on the same spec list,
    the same list of available modules, the same robot path and flag, and
    with a file system and loader that answer every question alike, give
    the same outcome: the same returned list in the same order (or the
    same error). *)
Theorem resolveDependencies_deterministic specs (w : W) :
  resolveDependencies available create_paths1 isfile1 abspath1
    processEasyconfig1 robot force specs w
  = resolveDependencies available create_paths2 isfile2 abspath2
      processEasyconfig2 robot force specs w.
Proof. unfold resolveDependencies. by rewrite robot_loop_ext. Qed.

End two_runs.

Section robot_claims.
Context {W : Type}.
Variable available : list ModuleId.
Variable create_paths : string → string → string → list string.
Variable isfile : W → string → bool.
Variable abspath : string → string.
Variable processEasyconfig :
  string → bool → W → EasyBuildError + (W * list easyconfig).
Variable robot : option string.
Variable force : bool.
Implicit Types st : State W.

Local Abbreviation rpass :=
  (robot_pass create_paths isfile abspath processEasyconfig robot force).
Local Abbreviation rloop :=
  (robot_loop create_paths isfile abspath processEasyconfig robot force).
Local Abbreviation choice :=
  (robot_choice create_paths isfile abspath robot).
Local Abbreviation extend := (robot_extend processEasyconfig force).

Lemma robot_for_stop_inv bi l st :
  robot_for create_paths isfile abspath processEasyconfig robot force
    bi l st = inr None →
  (∀ m c p, m ∈ l → choice bi (world st) m = Some (c, p) →
            extend st c p = inr None → False) →
  Forall (λ m, choice bi (world st) m = None) l.
Proof.
  induction l as [|m l IH]; [constructor|]. rewrite robot_for_cons.
  destruct (choice bi (world st) m) as [[c p]|] eqn:E.
  - intros He Hn. exfalso. eapply Hn; [by left|done|done].
  - intros H Hn. constructor; [done|]. apply IH; [done|].
    intros m' c p Hin. apply Hn. by right.
Qed.

Lemma robot_extend_not_stop st c p : extend st c p ≠ inr None.
Proof.
  unfold robot_extend.
  destruct (processEasyconfig _ _ _) as [|[w' specs]]; [done|].
  by case_decide.
Qed.

(** Claim C4, as the code has it.  The robot scans [unprocessed] in order
    and asks, for each module, for the first of its dependencies that is
    not being installed.  A module without such a dependency, or for
    which nothing is found, is passed over and the scan goes on with the
    next module; the first module for which a path is found is the one
    that is expanded.  The pass ends without a [break] exactly when
    nothing is found for any module, and only then does the outer loop
    stop. *)
Theorem robot_pass_scan st :
  let bi := map module (unprocessed st) in
  (rpass st = inr None
   ↔ Forall (λ m, choice bi (world st) m = None) (unprocessed st))
  ∧ (∀ l1 m l2 c p,
       unprocessed st = l1 ++ m :: l2 →
       Forall (λ m', choice bi (world st) m' = None) l1 →
       choice bi (world st) m = Some (c, p) →
       rpass st = extend st c p)
  ∧ (∀ fuel cnt st1,
       ¬ maxloopcnt < cnt + 1 →
       resolve_loop (S (length (unprocessed st))) (-1) st = Some st1 →
       truthy robot = true → unprocessed st1 ≠ [] →
       rloop (S fuel) cnt st =
       match rpass st1 with
       | inl err => Some (cnt + 1, inl err)
       | inr (Some st2) => rloop fuel (cnt + 1) st2
       | inr None => Some (cnt + 1, inr st1)
       end).
Proof.
  intros bi. split_and!.
  - unfold robot_pass. fold bi. split.
    + intros H. apply robot_for_stop_inv; [done|].
      intros m c p _ _. apply robot_extend_not_stop.
    + apply robot_for_None.
  - intros l1 m l2 c p Hl Hskip Hc. unfold robot_pass. fold bi.
    rewrite Hl, robot_for_skip by done. rewrite robot_for_cons. by rewrite Hc.
  - intros fuel cnt st1 Hcap E Hr Hne. rewrite robot_loop_S.
    rewrite decide_False by done. rewrite E, Hr. simpl.
    rewrite bool_decide_true; [done|].
    destruct (unprocessed st1); [done|simpl; lia].
Qed.

(** Claim C10.  [findResolvedModules] rewrites the caller's list in
    place: of the scanned modules (which differ from the given ones only
    in ['dependencies']) those with no dependency left are returned and
    the others are what the list holds afterwards.  After a successful
    resolution in [main] the list is empty, so the loop that removes the
    generated block files removes nothing. *)
Theorem resolveDependencies_empties_caller_list :
  (∀ l P new l' P',
     findResolvedModules l P = (new, l', P') →
     ∃ seen,
       Forall2 (λ m m', m' = set_dependencies m (dependencies m')) l seen
       ∧ new = filter (λ m, length (dependencies m) = 0%nat) seen
       ∧ l' = filter (λ m, (0 < length (dependencies m))%nat) seen)
  ∧ (∀ easyconfigs (w : W) rest w' ordered,
       main_resolve available create_paths isfile abspath processEasyconfig
         robot force easyconfigs w = Some (inr (rest, w', ordered)) →
       rest = [] ∧ main_cleanup rest = []).
Proof.
  split.
  - intros l P new l' P'. unfold findResolvedModules.
    destruct (scan_modules l P) as [[seen ord] P1] eqn:E. intros [= <- <- <-].
    exists seen. split; [by eapply scan_modules_seen|].
    by destruct (scan_modules_shape _ _ _ _ _ E) as (_ & -> & _).
  - intros easyconfigs w rest w' ordered. unfold main_resolve.
    case_decide as Hlen.
    + intros ->%resolveDependencies_leaves_nothing. done.
    + intros [= <- <- <-]. destruct easyconfigs; [done|simpl in Hlen; lia].
Qed.

End robot_claims.

(** *** A module that is installed and that the robot loads again *)

Lemma filter_notin_cons_True (P : list ModuleId) d l :
  d ∉ P → filter (λ d, d ∉ P) (d :: l) = d :: filter (λ d, d ∉ P) l.
Proof. intros. by rewrite filter_cons_True. Qed.

Lemma filter_notin_cons_False (P : list ModuleId) d l :
  d ∈ P → filter (λ d, d ∉ P) (d :: l) = filter (λ d, d ∉ P) l.
Proof. intros H. rewrite filter_cons_False; [done|]. intros Hn. by apply Hn. Qed.

Section rebuilt.
Variables a x z : easyconfig.
Variable P0 : list ModuleId.
Hypothesis Ha : dependencies a = [module x; module z].
Hypothesis Hx : dependencies x = [].
Hypothesis Hz : dependencies z = [module a].
Hypothesis Hax : module a ≠ module x.
Hypothesis HzP0 : module z ∈ P0.
Hypothesis HxP0 : module x ∉ P0.
Hypothesis HaP0 : module a ∉ P0.

(** [A] waits for [X]; its dependency on [Z] is dropped, [Z] being
    installed. *)
Lemma first_scan :
  findResolvedModules [a] P0 = ([], [set_dependencies a [module x]], P0).
Proof.
  unfold findResolvedModules. cbn [scan_modules].
  cbn [set_dependencies dependencies]. rewrite Ha.
  rewrite filter_notin_cons_True, filter_notin_cons_False by done.
  rewrite filter_nil. rewrite decide_False by done.
  by rewrite filter_cons_True by (simpl; lia).
Qed.

(** After the robot has loaded [X] and [Z]: [X] is resolved, [A] and [Z]
    wait. *)
Lemma second_scan :
  findResolvedModules [set_dependencies a [module x]; x; z] P0
  = ([resolved x], [set_dependencies a [module x]; z], P0 ++ [module x]).
Proof.
  unfold findResolvedModules. cbn [scan_modules].
  cbn [set_dependencies dependencies module]. rewrite Hx, Hz.
  rewrite filter_notin_cons_True by done. rewrite !filter_nil.
  rewrite (decide_False (P:=length [module x] = 0%nat)) by done.
  rewrite (decide_True (P:=length (@nil ModuleId) = 0%nat)) by done.
  rewrite filter_notin_cons_True.
  2:{ intros [?|Hin%list_elem_of_singleton]%elem_of_app; [done|].
      by apply Hax. }
  rewrite filter_nil.
  rewrite (decide_False (P:=length [module a] = 0%nat)) by done.
  replace (set_dependencies z [module a]) with z
    by (rewrite <- Hz; symmetry; apply set_dependencies_id).
  rewrite filter_cons_True by (simpl; lia).
  rewrite filter_cons_False by (simpl; lia).
  by rewrite filter_cons_True by (rewrite Hz; simpl; lia).
Qed.

(** Then [A] is resolved, and [Z] after it. *)
Lemma third_scan :
  findResolvedModules [set_dependencies a [module x]; z] (P0 ++ [module x])
  = ([resolved a; resolved z], [],
     ((P0 ++ [module x]) ++ [module a]) ++ [module z]).
Proof.
  unfold findResolvedModules. cbn [scan_modules].
  cbn [set_dependencies dependencies module]. rewrite Hz.
  rewrite filter_notin_cons_False.
  2:{ apply elem_of_app. right. by left. }
  rewrite filter_nil.
  rewrite (decide_True (P:=length (@nil ModuleId) = 0%nat)) by done.
  rewrite filter_notin_cons_False.
  2:{ apply elem_of_app. right. by left. }
  rewrite filter_nil.
  rewrite (decide_True (P:=length (@nil ModuleId) = 0%nat)) by done.
  rewrite !filter_cons_False by (simpl; lia). done.
Qed.

End rebuilt.

(** Claim C1.  A failing input for the order of the returned list.  [A]
    is given and needs [X] and [Z]; [Z] is an available module and [X] is
    not; the file the robot finds for [X] holds [X], which needs nothing,
    and [Z], which needs [A].  The run returns [X], [A], [Z]: [A] stands
    before [Z], its dependency on [Z] having been dropped against the
    module of [Z] that was available, although this run installs [Z].
    So the returned list is not in order once the available modules are
    taken without those the run installs: [Z] is not among them, and no
    spec before [A] provides it. *)
Theorem installed_module_used_before_rebuilt {W : Type} available create_paths
    (isfile : W → string → bool) abspath processEasyconfig (robot : string)
    (a x z : easyconfig) (path : string) (w w' : W) :
  dependencies a = [module x; module z] →
  dependencies x = [] →
  dependencies z = [module a] →
  module a ≠ module x → module a ≠ module z →
  module z ∈ available → module x ∉ available →
  robotFindEasyconfig create_paths isfile abspath w robot (module x)
  = Some path →
  truthy (Some path) = true → truthy (Some robot) = true →
  processEasyconfig path true w = inr (w', [x; z]) →
  resolveDependencies available create_paths isfile abspath
    processEasyconfig (Some robot) false [a] w
  = Some (inr ([], w', [resolved x; resolved a; resolved z]))
  ∧ ¬ ordered_ok (filter (λ m, m ∉ map module [x; a; z]) available)
        [x; a; z].
Proof.
  intros Ha Hx Hz Hax Haz Hzav Hxav Hfind Hpath Hrobot Hload. split; last first.
  { intros Hok.
    destruct (Hok 1%nat a (module z) eq_refl) as [Hin|(j & t & Hj & Ht & Hm)].
    - rewrite Ha. set_solver.
    - apply list_elem_of_filter in Hin as [Hn _]. apply Hn. set_solver.
    - destruct j as [|j]; [|lia]. simpl in Ht. injection Ht as <-.
      apply Hxav. by rewrite Hm. }
  unfold resolveDependencies, initial_state. cbn [map].
  set (P0 := filter (λ m, m ∉ [module a]) available).
  assert (module z ∈ P0) as HzP0.
  { apply list_elem_of_filter. split; [|done].
    intros Hin%list_elem_of_singleton. by apply Haz. }
  assert (module x ∉ P0) as HxP0.
  { intros [_ Hin]%list_elem_of_filter. by apply Hxav. }
  assert (module a ∉ P0) as HaP0.
  { intros [Hn _]%list_elem_of_filter. apply Hn. by left. }
  change (Z.to_nat (maxloopcnt + 1)) with (S (S (Z.to_nat (maxloopcnt - 1)))).
  rewrite robot_loop_S. rewrite decide_False by (unfold maxloopcnt; lia).
  cbn [unprocessed length].
  (* the inner loop, before the robot *)
  rewrite resolve_loop_unfold. cbn [processed unprocessed orderedSpecs world].
  rewrite decide_True by lia.
  rewrite (first_scan a x z P0 Ha HzP0 HxP0).
  rewrite resolve_loop_unfold. cbn [processed unprocessed orderedSpecs world].
  rewrite decide_False by lia.
  (* the robot *)
  rewrite Hrobot. cbn [unprocessed length andb].
  rewrite bool_decide_true by lia.
  unfold robot_pass. cbn [unprocessed map robot_for world].
  unfold candidates_of. cbn [set_dependencies dependencies module].
  rewrite filter_notin_cons_True.
  2:{ intros Hin%list_elem_of_singleton. by apply Hax. }
  rewrite ?filter_nil, Hfind, Hpath. cbn [negb]. rewrite Hload.
  cbn [map]. rewrite decide_True by (by left).
  cbn [processed orderedSpecs app].
  (* the inner loop, after the robot *)
  rewrite robot_loop_S. rewrite decide_False by (unfold maxloopcnt; lia).
  cbn [unprocessed length].
  rewrite resolve_loop_unfold. cbn [processed unprocessed orderedSpecs world].
  rewrite decide_True by lia.
  rewrite (second_scan a x z P0 Hx Hz Hax HxP0 HaP0).
  rewrite resolve_loop_unfold. cbn [processed unprocessed orderedSpecs world].
  rewrite decide_True by (rewrite length_app; simpl; lia).
  rewrite (third_scan a x z P0 Hz).
  rewrite resolve_loop_unfold. cbn [processed unprocessed orderedSpecs world].
  rewrite decide_True by (rewrite !length_app; simpl; lia).
  unfold findResolvedModules at 1. cbn [scan_modules]. rewrite filter_nil.
  rewrite resolve_loop_unfold. cbn [processed unprocessed orderedSpecs world].
  rewrite decide_False by lia.
  cbn [unprocessed length]. rewrite bool_decide_false by lia.
  rewrite andb_false_r. unfold conclude. cbn [unprocessed length].
  rewrite decide_False by lia. reflexivity.
Qed.

(** *** The claims on the sample inputs *)

Import Samples.

Lemma installed_module_used_before_rebuilt_witness :
  resolveDependencies [("Z", "1.0")] create_paths (isfile rebuild_repo)
    abspath (load_from_repo rebuild_repo) (Some "/robot") false
    rebuild_specs tt
  = Some (inr ([], tt,
               [resolved (ec_block "/robot/X-1.0.eb" "X" []);
                resolved (ec "A" ["X"; "Z"]);
                resolved (ec_block "/robot/X-1.0.eb" "Z" ["A"])]))
  ∧ ¬ ordered_ok
        (filter (λ m, m ∉ [("X", "1.0"); ("A", "1.0"); ("Z", "1.0")])
           [("Z", "1.0")])
        [ec_block "/robot/X-1.0.eb" "X" []; ec "A" ["X"; "Z"];
         ec_block "/robot/X-1.0.eb" "Z" ["A"]].
Proof.
  apply (installed_module_used_before_rebuilt [("Z", "1.0")] create_paths
           (isfile rebuild_repo) abspath (load_from_repo rebuild_repo)
           "/robot" (ec "A" ["X"; "Z"]) (ec_block "/robot/X-1.0.eb" "X" [])
           (ec_block "/robot/X-1.0.eb" "Z" ["A"]) "/robot/X-1.0.eb" tt tt);
    try reflexivity; apply (bool_decide_unpack _); vm_compute; exact I.
Defined.

Lemma resolveDependencies_unresolved_witness :
  (∃ missing R added,
     resolveDependencies [] create_paths (isfile []) abspath
       (load_from_repo []) None false cyclic_specs tt
     = Some (inl (DependenciesNotMet missing))
     ∧ (∀ r, r ∈ R → r ∈ cyclic_specs ++ added)
     ∧ cyclic_specs =
         map (λ r, set_dependencies r
                     (filter (λ d, d ∉ []) (dependencies r))) R
     ∧ (∀ r, r ∈ R → filter (λ d, d ∉ []) (dependencies r) ≠ [])
     ∧ (∀ d, d ∈ missing ↔ ∃ r, r ∈ R ∧ d ∈ dependencies r ∧ d ∉ []))
  ∧ (∃ missing,
       resolveDependencies [] create_paths (isfile []) abspath
         (load_from_repo []) None false cyclic_specs tt
       = Some (inl (DependenciesNotMet missing))
       ∧ ("X", "1.0") ∈ missing)
  ∧ (∃ missing,
       resolveDependencies [] create_paths (isfile []) abspath
         (load_from_repo []) None false cyclic_specs tt
       = Some (inl (DependenciesNotMet missing))
       ∧ ∀ s t, s ∈ [ec "A" ["B"]; ec "B" ["A"]] →
                t ∈ [ec "A" ["B"]; ec "B" ["A"]] →
                module t ∈ dependencies s → module t ∈ missing).
Proof.
  pose proof (resolveDependencies_unresolved [] create_paths (isfile [])
                abspath (load_from_repo []) None false cyclic_specs tt)
    as (_ & Hleft & Hnorobot).
  destruct (Hnorobot eq_refl) as [Hmissing Hcycle]. split_and!.
  - apply (Hleft 1 (mk_State cyclic_specs [] [] tt)).
    + vm_compute. reflexivity.
    + discriminate.
  - apply (Hmissing (ec "C" ["X"; "A"]) ("X", "1.0")); compute_done.
  - apply (Hcycle [ec "A" ["B"]; ec "B" ["A"]]).
    + compute_done.
    + discriminate.
    + intros s [->|[->|[]%elem_of_nil]%elem_of_cons]%elem_of_cons.
      * split; [compute_done|]. exists (ec "B" ["A"]). split; compute_done.
      * split; [compute_done|]. exists (ec "A" ["B"]). split; compute_done.
Defined.

(** Claim C4 fails as worded.  With [A] needing [X] and [B] needing [Y],
    the first eligible spec is [A] and nothing is found for [X]; the pass
    nevertheless goes on to [B], finds [Y], extends [unprocessed], and the
    outer loop runs again: in the end only [X] is reported missing. *)
Lemma robot_tries_next_spec :
  let st := mk_State two_specs [] [] tt in
  let bi := map module (unprocessed st) in
  first_eligible bi (unprocessed st) = Some (ec "A" ["X"], ("X", "1.0"))
  ∧ robotFindEasyconfig create_paths (isfile only_Y) abspath tt "/robot"
      ("X", "1.0") = None
  ∧ robot_pass create_paths (isfile only_Y) abspath (load_from_repo only_Y)
      (Some "/robot") false st
    = inr (Some (mk_State (two_specs ++ [ec "Y" []]) [] [] tt))
  ∧ resolveDependencies [] create_paths (isfile only_Y) abspath
      (load_from_repo only_Y) (Some "/robot") false two_specs tt
    = Some (inl (DependenciesNotMet {[ ("X", "1.0") ]})).
Proof. vm_compute. done. Qed.

Lemma robot_pass_scan_witness :
  let st := mk_State two_specs [] [] tt in
  robot_pass create_paths (isfile only_Y) abspath (load_from_repo only_Y)
    (Some "/robot") false st
  = robot_extend (load_from_repo only_Y) false st ("Y", "1.0")
      "/robot/Y-1.0.eb".
Proof.
  intros st.
  apply (proj1 (proj2 (robot_pass_scan create_paths (isfile only_Y) abspath
                         (load_from_repo only_Y) (Some "/robot") false st))
               [ec "A" ["X"]] (ec "B" ["Y"]) []).
  - reflexivity.
  - constructor; [|constructor]. vm_compute. reflexivity.
  - vm_compute. reflexivity.
Defined.

Lemma resolveDependencies_loop_cap_witness :
  maxloopcnt = 10000
  ∧ is_Some (resolveDependencies [] create_paths (isfile only_Y) abspath
               (load_from_repo only_Y) (Some "/robot") false two_specs tt)
  ∧ (∃ cnt r,
       robot_loop create_paths (isfile only_Y) abspath
         (load_from_repo only_Y) (Some "/robot") false
         (Z.to_nat (maxloopcnt + 1)) 0 (initial_state [] false two_specs tt)
       = Some (cnt, r)
       ∧ robot_loop create_paths (isfile only_Y) abspath
           (load_from_repo only_Y) (Some "/robot") false
           (Z.to_nat (maxloopcnt + 1) + 7) 0
           (initial_state [] false two_specs tt)
         = Some (cnt, r)
       ∧ 1 ≤ cnt ≤ maxloopcnt + 1
       ∧ (maxloopcnt < cnt → r = inl (MaxLoopCnt maxloopcnt)))
  ∧ resolveDependencies [] endless_create_paths endless_isfile id
      endless_process (Some "/robot") false [endless_spec "x"] tt
    = Some (inl (MaxLoopCnt 10000)).
Proof.
  exact (resolveDependencies_loop_cap [] create_paths (isfile only_Y) abspath
           (load_from_repo only_Y) (Some "/robot") false two_specs tt 7).
Defined.

Lemma resolveDependencies_deterministic_witness :
  resolveDependencies [] create_paths (isfile only_Y) abspath
    (load_from_repo only_Y) (Some "/robot") false two_specs tt
  = resolveDependencies [] (λ r n v, create_paths r n v)
      (λ w p, isfile only_Y w p) (λ p, abspath p)
      (λ p v w, load_from_repo only_Y p v w) (Some "/robot") false
      two_specs tt.
Proof.
  apply resolveDependencies_deterministic; intros; reflexivity.
Defined.

Lemma resolveDependencies_empties_caller_list_witness :
  main_cleanup block_specs ≠ []
  ∧ ([] : list easyconfig) = [] ∧ main_cleanup [] = [].
Proof.
  split; [discriminate|].
  apply (proj2 (resolveDependencies_empties_caller_list [] create_paths
                  (isfile []) abspath (load_from_repo []) None false)
               block_specs tt [] tt (map resolved block_specs)).
  vm_compute. reflexivity.
Defined.

(** The robot, the loader and the resolver together: [B] needs [Y], the
    robot finds the file of [Y] and loads it, [Y] is placed before [B]. *)
Lemma robot_loads_from_files :
  resolveDependencies_on_files sample_eval sample_mkstemp sample_EasyConfig
    [] create_paths abspath (Some "/robot") false [ec "B" ["Y"]] robot_fs
  = Some (inr ([], robot_fs,
               [mk_easyconfig "/robot/Y-1.0.eb" ("Y", "1.0") [] None [];
                resolved (ec "B" ["Y"])])).
Proof. vm_compute. reflexivity. Qed.

End ResolveFacts.

Module BatchFacts.
Import Batch.

Section isolation.
Context {R : Type}.
Variable get_instance : easyconfig → Process R → Process R * option Exn.
Variable call : Method → App → Process R → Process R * option Exn.
Variable has_tests : App → bool.
Variable move_log : App → string → Process R → Process R * bool.
Variable applog_path : string → App → string.
Implicit Types b : Batch R.

(** A halted instance is not touched again. *)
Lemma perform_steps_stopped todo app logfile b :
  key_of_app app ∈ dom (build_stopped b) →
  perform_steps call todo app logfile b = inr b.
Proof.
  intros Hin. induction todo as [|[step method] todo IH]; [done|].
  simpl. unfold perform_step, can_build.
  rewrite bool_decide_false by (intros Hn; by apply Hn). apply IH.
Qed.

(** The [perform_step] calls on an instance that is not halted run its
    methods until one raises, record that failure, and skip the rest. *)
Lemma perform_steps_until_failure todo app logfile b :
  key_of_app app ∉ dom (build_stopped b) →
  perform_steps call todo app logfile b
  = inr (match run_until_failure call todo app (proc b) with
         | (p, None) => mk_Batch p (test_results b) (build_stopped b)
         | (p, Some (step, err)) =>
             record_failure (inr app) step err logfile b p
         end).
Proof.
  revert b. induction todo as [|[step method] todo IH]; intros b Hn.
  - simpl. by destruct b.
  - simpl. unfold perform_step, can_build. rewrite bool_decide_true by done.
    destruct (call method app (proc b)) as [p [err|]].
    + apply perform_steps_stopped. unfold record_failure. simpl.
      rewrite dom_insert. apply elem_of_union. left.
      by apply elem_of_singleton.
    + by rewrite IH.
Qed.

Lemma perform_steps_app todo1 todo2 app logfile b :
  perform_steps call (todo1 ++ todo2) app logfile b
  = match perform_steps call todo1 app logfile b with
    | inl abort => inl abort
    | inr b1 => perform_steps call todo2 app logfile b1
    end.
Proof.
  revert b. induction todo1 as [|[step method] todo1 IH]; intros b; [done|].
  simpl. destruct (perform_step call step app method logfile b); [done|].
  apply IH.
Qed.

(** Building an instance that is not halted, when its log can be moved, is
    building it on its own from the baseline. *)
Lemma build_app_isolated output_dir skip base_dir base_env app b :
  key_of_app app ∉ dom (build_stopped b) →
  (∀ p, (move_log app (applog_path output_dir app) p).2 = true) →
  build_app call has_tests move_log applog_path output_dir skip base_dir
    base_env app b
  = inr (build_app_alone call has_tests move_log applog_path output_dir skip
           base_dir base_env app b).
Proof.
  intros Hn Hmove. unfold build_app, build_app_alone, all_steps.
  cbv zeta. unfold modifyEnv, chdir. cbn [fst environ cwd rest].
  set (lf := LogFile _). set (b0 := mk_Batch _ _ _).
  set (p0 := mk_Process _ _ _).
  assert (perform_steps call
            (steps ++ (if negb skip && has_tests app
                       then [("test cases", test_cases_step)] else []))
            app lf b0
          = match perform_steps call steps app lf b0 with
            | inl abort => inl abort
            | inr b1 =>
                if negb skip && has_tests app then
                  perform_step call "test cases" app test_cases_step lf b1
                else inr b1
            end) as Happ.
  { rewrite perform_steps_app.
    destruct (perform_steps call steps app lf b0) as [|b1]; [done|].
    destruct (negb skip && has_tests app); [|done]. simpl.
    by destruct (perform_step call _ app _ lf b1). }
  rewrite perform_steps_until_failure in Happ by done.
  destruct (perform_steps call steps app lf b0) as [abort|b1].
  { discriminate Happ. }
  rewrite <- Happ. clear Happ.
  change (proc b0) with p0.
  destruct (run_until_failure call _ app p0) as [p1 [[step err]|]].
  - cbn [proc record_failure test_results build_stopped fst].
    pose proof (Hmove p1) as Hm.
    destruct (move_log app (applog_path output_dir app) p1) as [p3 ok].
    simpl in Hm. subst ok. cbn [fst test_results build_stopped].
    rewrite bool_decide_false; [done|]. intros Hk. apply Hk.
    rewrite dom_insert. apply elem_of_union. left. by apply elem_of_singleton.
  - cbn [proc test_results build_stopped fst].
    pose proof (Hmove p1) as Hm.
    destruct (move_log app (applog_path output_dir app) p1) as [p3 ok].
    simpl in Hm. subst ok. cbn [fst test_results build_stopped].
    by rewrite bool_decide_true.
Qed.

(** Building on its own only adds the key of the instance. *)
Lemma build_app_alone_keys output_dir skip base_dir base_env app b k :
  k ∈ dom (build_stopped
             (build_app_alone call has_tests move_log applog_path output_dir
                skip base_dir base_env app b).1) →
  k = key_of_app app ∨ k ∈ dom (build_stopped b).
Proof.
  unfold build_app_alone. cbv zeta.
  destruct (run_until_failure call _ app _) as [p1 [[step err]|]]; simpl.
  - rewrite dom_insert, elem_of_union, elem_of_singleton. tauto.
  - by right.
Qed.

(** Every instance of the batch is built on its own: a failure of one
    does not keep the loop from building the others. *)
Lemma build_all_isolated output_dir skip base_dir base_env apps b succes :
  NoDup (omap (fmap key_of_app) apps) →
  (∀ app, Some app ∈ apps → key_of_app app ∉ dom (build_stopped b)) →
  (∀ app p, (move_log app (applog_path output_dir app) p).2 = true) →
  build_all call has_tests move_log applog_path output_dir skip base_dir
    base_env apps b succes
  = inr (build_all_alone call has_tests move_log applog_path output_dir skip
           base_dir base_env apps b succes).
Proof.
  intros Hnd Hn Hmove. revert b succes Hn.
  induction apps as [|[app|] apps IH]; intros b succes Hn; [done| |].
  - simpl in Hnd. apply NoDup_cons in Hnd as [Hfresh Hnd].
    cbn [build_all build_all_alone].
    rewrite build_app_isolated; [|apply Hn; by left|by intros].
    destruct (build_app_alone _ _ _ _ _ _ _ _ app b) as [b1 ok] eqn:E.
    apply IH; [done|]. intros app' Hin Hk.
    assert (b1 = (build_app_alone call has_tests move_log applog_path
                    output_dir skip base_dir base_env app b).1) as Hb1
      by (by rewrite E).
    rewrite Hb1 in Hk. apply build_app_alone_keys in Hk as [Hk|Hk].
    + apply Hfresh. rewrite <- Hk. apply list_elem_of_omap.
      exists (Some app'). done.
    + revert Hk. apply Hn. by right.
  - cbn [build_all build_all_alone]. apply IH; [done|].
    intros app' Hin. apply Hn. by right.
Qed.

(** With distinct spec paths, none of them halted, initialization does not
    abort: every easyconfig gets its instance or a failure record with its
    path, and no instance is halted. *)
Lemma initialize_all_distinct idx easyconfigs b :
  NoDup (map spec easyconfigs) →
  (∀ ec, ec ∈ easyconfigs → inl (spec ec) ∉ dom (build_stopped b)) →
  (∀ k, inr k ∉ dom (build_stopped b)) →
  ∃ b' apps,
    initialize_all get_instance idx easyconfigs b = inr (b', apps)
    ∧ (∀ k, inr k ∉ dom (build_stopped b'))
    ∧ Forall2 (λ ec instance,
                 match instance with
                 | Some app => app_ec app = ec
                 | None =>
                     ∃ err log,
                       mk_Failure (inl (spec ec)) "initialization" err log
                       ∈ test_results b'
                 end) easyconfigs apps
    ∧ omap (fmap key_of_app) apps
      `sublist_of` (inr <$> seq idx (length easyconfigs))
    ∧ (∀ f, f ∈ test_results b → f ∈ test_results b').
Proof.
  revert idx b. induction easyconfigs as [|ec ecs IH]; intros idx b Hnd Hs Hk.
  - exists b, []. simpl. split_and!; [done|done|constructor|done|done].
  - simpl in Hnd. apply NoDup_cons in Hnd as [Hfresh Hnd].
    cbn [initialize_all]. unfold perform_initialization, can_build.
    rewrite decide_True by (apply Hs; by left).
    destruct (get_instance ec (proc b)) as [p [err|]].
    + set (b1 := record_failure _ _ _ _ _ _).
      destruct (IH (S idx) b1) as (b' & apps & -> & Hk' & HF & Hsub & Hkeep);
        [done| | |].
      * intros ec' Hin. subst b1. unfold record_failure. simpl.
        rewrite dom_insert, elem_of_union, elem_of_singleton.
        intros [[= Heq]|Hd].
        -- apply Hfresh. rewrite <- Heq. by apply list_elem_of_fmap_2.
        -- revert Hd. apply Hs. by right.
      * intros k. subst b1. unfold record_failure. simpl.
        rewrite dom_insert, elem_of_union, elem_of_singleton.
        intros [[=]|Hd]. by apply (Hk k).
      * exists b', (None :: apps). split_and!; [done|done| | |].
        -- constructor; [|done]. exists (fullerr err), MainLog.
           apply Hkeep. subst b1. unfold record_failure. simpl.
           apply elem_of_app. right. by left.
        -- simpl. by apply sublist_cons.
        -- intros f Hf. apply Hkeep. subst b1. unfold record_failure. simpl.
           apply elem_of_app. by left.
    + set (b1 := mk_Batch _ _ _).
      destruct (IH (S idx) b1) as (b' & apps & -> & Hk' & HF & Hsub & Hkeep);
        [done| |done|].
      * intros ec' Hin. apply Hs. by right.
      * exists b', (Some (mk_App idx ec) :: apps).
        split_and!; [done|done| | |done].
        -- by constructor.
        -- simpl. by apply sublist_skip.
Qed.

(** With distinct spec paths and logs that can be moved,
    [build_easyconfigs] builds every instance on its own and reports. *)
Lemma build_easyconfigs_isolated easyconfigs output_dir test_results0 skip
    (p : Process R) :
  NoDup (map spec easyconfigs) →
  (∀ app p, (move_log app (applog_path output_dir app) p).2 = true) →
  ∃ b apps,
    initialize_all get_instance 0 easyconfigs (mk_Batch p test_results0 ∅)
      = inr (b, apps)
    ∧ build_easyconfigs get_instance call has_tests move_log applog_path
        easyconfigs output_dir test_results0 skip p
      = inr (let '(b1, succes) :=
               build_all_alone call has_tests move_log applog_path output_dir
                 skip (cwd (proc b)) (environ (proc b)) apps b [] in
             mk_Report (proc b1) succes (test_results b1)
                       (size (build_stopped b1)) (length apps)).
Proof.
  intros Hnd Hmove.
  destruct (initialize_all_distinct 0 easyconfigs (mk_Batch p test_results0 ∅))
    as (b & apps & E & Hk & _ & Hsub & _).
  { done. }
  { intros ec _. simpl. rewrite dom_empty. apply not_elem_of_empty. }
  { intros k. simpl. rewrite dom_empty. apply not_elem_of_empty. }
  exists b, apps. split; [exact E|]. unfold build_easyconfigs. rewrite E.
  rewrite build_all_isolated.
  - by destruct (build_all_alone _ _ _ _ _ _ _ _ _ _ _).
  - eapply sublist_NoDup; [|exact Hsub]. apply NoDup_fmap; [|apply NoDup_seq].
    by intros ?? [=].
  - intros app _. apply Hk.
  - done.
Qed.

End isolation.

(** Claim C2.  A batch in which the spec path of an easyconfig whose
    initialization failed comes again does not survive: for the second
    dict the condition that opens [perform_step] looks a dict up in
    [build_stopped], which raises [TypeError] outside any [try].  No later
    easyconfig gets an instance, no instance is built and nothing is
    reported, whereas every other instance should have been driven through
    its steps. *)
Theorem repeated_spec_aborts_batch {R : Type}
    (get_instance : easyconfig → Process R → Process R * option Exn)
    (call : Method → App → Process R → Process R * option Exn)
    (has_tests : App → bool)
    (move_log : App → string → Process R → Process R * bool)
    (applog_path : string → App → string)
    (ec1 ec2 : easyconfig) (others : list easyconfig) (output_dir : string)
    (test_results0 : list Failure) (skip_test_cases : bool)
    (p p' : Process R) (err : Exn) :
  spec ec2 = spec ec1 →
  get_instance ec1 p = (p', Some err) →
  build_easyconfigs get_instance call has_tests move_log applog_path
    (ec1 :: ec2 :: others) output_dir test_results0 skip_test_cases p
  = inl TypeError_unhashable_dict.
Proof.
  intros Hspec Hget. unfold build_easyconfigs. cbn [initialize_all].
  unfold perform_initialization at 1. cbn [can_build build_stopped proc].
  rewrite decide_True by (rewrite dom_empty; apply not_elem_of_empty).
  rewrite Hget. unfold perform_initialization, can_build, record_failure.
  cbn [build_stopped]. rewrite decide_False; [done|].
  intros Hn. apply Hn. rewrite Hspec, dom_insert. apply elem_of_union. left.
  by apply elem_of_singleton.
Qed.

Import Samples.

Lemma repeated_spec_aborts_batch_witness :
  build_easyconfigs sample_get_instance sample_call sample_has_tests
    sample_move_log sample_applog_path [broken; broken; good] "/out" [] false
    sample_process
  = inl TypeError_unhashable_dict.
Proof.
  apply (repeated_spec_aborts_batch sample_get_instance sample_call
           sample_has_tests sample_move_log sample_applog_path broken broken
           [good] "/out" [] false sample_process sample_process
           (mk_Exn true "no easyblock" EmptyString)).
  - reflexivity.
  - vm_compute. reflexivity.
Defined.

(** Without the repetition the failure is recorded with the spec path and
    the other easyconfigs are built: here [good.eb] twice, and
    [failing.eb] up to its configure step. *)
Lemma batch_without_repetition :
  ∃ r,
    build_easyconfigs sample_get_instance sample_call sample_has_tests
      sample_move_log sample_applog_path [good; failing; broken; good]
      "/out" [] false sample_process
    = inr r
    ∧ succes r = [mk_App 0 good; mk_App 3 good]
    ∧ results r
      = [mk_Failure (inl (spec broken)) "initialization" "no easyblock"
                    MainLog;
         mk_Failure (inr (mk_App 1 failing)) "configure" "configure failed"
                    (LogFile "/out/failing.log")]
    ∧ failed r = 2%nat ∧ total r = 4%nat.
Proof. eexists. split_and!; [vm_compute; reflexivity|done..]. Qed.

End BatchFacts.

Module SessionFacts.
Import Batch Session.

Section session_facts.
Context {R : Type}.
Variable load_easyblock : easyconfig → Process R → Process R * Ending.
Variable run_all_steps : easyconfig → Process R → Process R * StepsResult.
Variable wrap_up : easyconfig → bool → Process R → Process R * Ending.

(** One build shows [load_easyblock] the snapshot and the directory it was
    entered in, and leaves the process in that directory. *)
Lemma build_and_install_software_clean module0 origEnviron exitOnFailure
    (p : Process R) :
  build_and_install_software load_easyblock run_all_steps wrap_up module0
    origEnviron exitOnFailure p
  = build_and_install_software
      (from_baseline origEnviron (cwd p) load_easyblock) run_all_steps
      wrap_up module0 origEnviron exitOnFailure p
  ∧ ∀ p' success,
      build_and_install_software load_easyblock run_all_steps wrap_up module0
        origEnviron exitOnFailure p = Return p' success →
      cwd p' = cwd p.
Proof.
  unfold build_and_install_software, from_baseline, modifyEnv. simpl.
  split; [done|]. intros p' success.
  destruct (load_easyblock module0 _) as [p2 [| |exn]]; [|done..].
  destruct (run_all_steps module0 p2) as [p3 [result|msg|what]]; [|done..].
  destruct (wrap_up module0 result p3) as [p4 [| |exn]]; [|done..].
  destruct result; simpl.
  - by intros [= <- <-].
  - destruct exitOnFailure; [done|]. by intros [= <- <-].
Qed.

Lemma build_loop_clean origEnviron orderedSpecs (p : Process R) c a :
  build_loop load_easyblock run_all_steps wrap_up origEnviron orderedSpecs p
    c a
  = build_loop (from_baseline origEnviron (cwd p) load_easyblock)
      run_all_steps wrap_up origEnviron orderedSpecs p c a.
Proof.
  revert p c a. induction orderedSpecs as [|spec0 specs IH]; intros p c a;
    [done|].
  simpl.
  destruct (build_and_install_software_clean spec0 origEnviron true p)
    as [<- Hcwd].
  destruct (build_and_install_software _ _ _ _ _ _ p)
    as [p1 success|code|exn]; [|done..].
  rewrite IH, (Hcwd p1 success eq_refl). done.
Qed.

End session_facts.

Section batch_facts.
Context {R : Type}.
Variable get_instance : easyconfig → Process R → Process R * option Exn.
Variable call : Method → App → Process R → Process R * option Exn.
Variable has_tests : App → bool.
Variable move_log : App → string → Process R → Process R * bool.
Variable applog_path : string → App → string.

Lemma perform_step_other env dir step app method logfile (b : Batch R) :
  method ≠ fetch_step →
  perform_step (with_clean_fetch env dir call) step app method logfile b
  = perform_step call step app method logfile b.
Proof. intros Hm. unfold perform_step. by destruct method. Qed.

Lemma perform_steps_other env dir todo app logfile (b : Batch R) :
  Forall (λ sm, sm.2 ≠ fetch_step) todo →
  perform_steps (with_clean_fetch env dir call) todo app logfile b
  = perform_steps call todo app logfile b.
Proof.
  intros H. revert b. induction H as [|[step method] todo Hm _ IH]; intros b;
    [done|].
  simpl. rewrite perform_step_other by done.
  destruct (perform_step call step app method logfile b); [done|apply IH].
Qed.

Lemma perform_steps_cons c step method todo app logfile (b : Batch R) :
  perform_steps c ((step, method) :: todo) app logfile b
  = match perform_step c step app method logfile b with
    | inl abort => inl abort
    | inr b1 => perform_steps c todo app logfile b1
    end.
Proof. reflexivity. Qed.

Lemma build_app_clean output_dir skip base_dir base_env app (b : Batch R) :
  build_app call has_tests move_log applog_path output_dir skip base_dir
    base_env app b
  = build_app (with_clean_fetch base_env base_dir call) has_tests move_log
      applog_path output_dir skip base_dir base_env app b.
Proof.
  unfold build_app. cbv zeta.
  set (b0 := mk_Batch _ _ _). set (lf := LogFile _).
  assert (perform_steps (with_clean_fetch base_env base_dir call) steps app
            lf b0 = perform_steps call steps app lf b0) as ->.
  { unfold steps. rewrite !perform_steps_cons.
    assert (perform_step (with_clean_fetch base_env base_dir call)
              "fetching files" app fetch_step lf b0
            = perform_step call "fetching files" app fetch_step lf b0) as ->
      by reflexivity.
    destruct (perform_step call "fetching files" app fetch_step lf b0)
      as [|b1]; [done|].
    apply perform_steps_other. repeat constructor; discriminate. }
  destruct (perform_steps call steps app lf b0) as [|b1]; [done|].
  by rewrite perform_step_other by discriminate.
Qed.

Lemma build_all_clean output_dir skip base_dir base_env apps (b : Batch R)
    succes :
  build_all call has_tests move_log applog_path output_dir skip base_dir
    base_env apps b succes
  = build_all (with_clean_fetch base_env base_dir call) has_tests move_log
      applog_path output_dir skip base_dir base_env apps b succes.
Proof.
  revert b succes. induction apps as [|[app|] apps IH]; intros b succes;
    [done| |apply IH].
  simpl. rewrite <- build_app_clean.
  destruct (build_app call _ _ _ _ _ _ _ _ _) as [|[b1 ok]]; [done|apply IH].
Qed.

End batch_facts.

(** Claim C9.  [main] takes its snapshot of the environment once, before
    the build loop, and every build of the loop starts from it: running
    the loop is the same as running it with a [load_easyblock] (the first
    thing a build does after the reset) that is only ever shown the
    snapshot as environment and the session directory as working
    directory.  [build_easyconfigs] takes its snapshot once, after the
    instances are created, and every build of its loop starts from it:
    running the loop is the same as running it with a [fetch_step] (the
    first step of a build) that is only ever shown that snapshot and that
    directory.  So nothing a build does to the environment or the working
    directory reaches a later build. *)
Theorem builds_start_from_baseline {R : Type} :
  (∀ load_easyblock run_all_steps wrap_up orderedSpecs (p : Process R),
     main_build load_easyblock run_all_steps wrap_up orderedSpecs p
     = match environ p !! "PWD" with
       | Some pwd =>
           main_build (from_baseline (environ p) pwd load_easyblock)
             run_all_steps wrap_up orderedSpecs p
       | None => None
       end)
  ∧ (∀ get_instance call has_tests move_log applog_path easyconfigs
       output_dir test_results0 skip (p : Process R),
       build_easyconfigs get_instance call has_tests move_log applog_path
         easyconfigs output_dir test_results0 skip p
       = match initialize_all get_instance 0 easyconfigs
                 (mk_Batch p test_results0 ∅) with
         | inl abort => inl abort
         | inr (b, apps) =>
             match
               build_all
                 (with_clean_fetch (environ (proc b)) (cwd (proc b)) call)
                 has_tests move_log applog_path output_dir skip
                 (cwd (proc b)) (environ (proc b)) apps b []
             with
             | inl abort => inl abort
             | inr (b1, succes) =>
                 inr (mk_Report (proc b1) succes (test_results b1)
                                (size (build_stopped b1)) (length apps))
             end
         end).
Proof.
  split.
  - intros load run wrap specs p. unfold main_build.
    destruct (environ p !! "PWD") as [pwd|]; [|done].
    by rewrite (build_loop_clean load run wrap (environ p) specs (chdir pwd p)).
  - intros get call tests move applog ecs out tr skip p.
    unfold build_easyconfigs.
    destruct (initialize_all get 0 ecs _) as [|[b apps]]; [done|].
    by rewrite <- build_all_clean.
Qed.

Import Samples.

Lemma builds_start_from_baseline_witness :
  main_build sample_load sample_run sample_wrap_up [good; failing]
    sample_process
  = main_build
      (from_baseline (environ sample_process) "/home/user" sample_load)
      sample_run sample_wrap_up [good; failing] sample_process.
Proof.
  exact (proj1 builds_start_from_baseline sample_load sample_run
           sample_wrap_up [good; failing] sample_process).
Defined.

End SessionFacts.
